(** * ERP-to-Magento mapper: a model of [src/index.js] and its properties

    The repository is one class, [MagentoMapper], whose asynchronous method
    [transform] interprets a mapping configuration against a source record
    and assembles a Magento product payload with [lodash.set].

    The development has three layers.

    - JavaScript data.  Objects created during one call (the payload, the
      containers made by [set], the records pushed on [custom_attributes],
      data built by a resolver) have a single owner and are modelled as
      trees.  Objects that exist before the call (the source record and
      whatever hangs off it) live in a store and are held by reference, so
      that writes that reach them through the payload are visible to
      every other holder.
    - [lodash.set], the only imported function: the walk of [baseSet].
    - [transform]: the synchronous loop over the three sections, the
      continuations of the awaited resolvers, [Promise.all], and the final
      check on [product.sku]. *)

From Stdlib Require Import ZArith NArith Ascii.
From stdpp Require Import base option list sorting strings pretty gmap.

Set Default Proof Using "Type".
Set Warnings "-register-all".

(** ** JavaScript values *)

Module Js.

(** Primitive values.  The engine never computes with a number; the only
    place where its value matters is the truthiness test on [product.sku],
    for which zero and NaN are the two falsy numbers. *)
Inductive prim : Type :=
| PUndefined
| PNull
| PBool (b : bool)
| PNum (z : Z)
| PNaN
| PStr (s : string).

(** An object is a property table, kept in insertion order.  An array is
    an object too: its elements are the properties whose keys are indices
    (a missing index is a hole), next to its [length]; like any object it
    may carry other properties.  Inherited properties, and [length] read or
    written as a property, are not part of the model. *)
Inductive node (A : Type) : Type :=
| Obj (props : list (string * A))
| Arr (len : nat) (props : list (string * A)).
Arguments Obj {A} props.
Arguments Arr {A} len props.

Definition props {A : Type} (n : node A) : list (string * A) :=
  match n with
  | Obj ps => ps
  | Arr _ ps => ps
  end.

Definition loc := nat.

(** Values held by the running call: a primitive, an object owned by the
    holder, or a reference to an object of the store. *)
Inductive value : Type :=
| VPrim (p : prim)
| VNode (n : node value)
| VRef (l : loc).

(** Values held by an object of the store: every object it can reach has an
    address. *)
Inductive wvalue : Type :=
| WPrim (p : prim)
| WRef (l : loc).

Definition world := list (node wvalue).

Definition of_wvalue (x : wvalue) : value :=
  match x with
  | WPrim p => VPrim p
  | WRef l => VRef l
  end.

Definition undefined : value := VPrim PUndefined.

Definition str (s : string) : value := VPrim (PStr s).
Definition num (z : Z) : value := VPrim (PNum z).

(** *** Property tables *)

Section Table.
Context {A : Type}.

Fixpoint prop_get (ps : list (string * A)) (k : string) : option A :=
  match ps with
  | [] => None
  | (k', a) :: ps' => if decide (k' = k) then Some a else prop_get ps' k
  end.

(** [o[k] = a]: an existing key keeps its place, a new one goes last. *)
Fixpoint prop_set (ps : list (string * A)) (k : string) (a : A)
  : list (string * A) :=
  match ps with
  | [] => [(k, a)]
  | (k', a') :: ps' =>
      if decide (k' = k) then (k, a) :: ps' else (k', a') :: prop_set ps' k a
  end.
End Table.

(** *** Array indices

    A key is an index when it is the canonical decimal spelling of a
    natural number (either the single digit zero, or a non-zero digit
    followed by digits).  [lodash]'s [isIndex] accepts it
    below [Number.MAX_SAFE_INTEGER]; an array treats it as an element index
    below [2^32 - 1]. *)

Definition digit_of (c : ascii) : option N :=
  let n := N_of_ascii c in
  if ((48 <=? n) && (n <=? 57))%N then Some (n - 48)%N else None.

Fixpoint digits_value (acc : N) (s : string) : option N :=
  match s with
  | EmptyString => Some acc
  | String c s' =>
      match digit_of c with
      | Some d => digits_value (10 * acc + d)%N s'
      | None => None
      end
  end.

Definition parse_uint (s : string) : option N :=
  match s with
  | EmptyString => None
  | String "0" EmptyString => Some 0%N
  | String "0" _ => None
  | _ => digits_value 0%N s
  end.

Definition MAX_SAFE_INTEGER : N := 9007199254740991%N.
Definition MAX_ARRAY_INDEX : N := 4294967295%N.

Definition isIndex (k : string) : bool :=
  match parse_uint k with
  | Some n => (n <? MAX_SAFE_INTEGER)%N
  | None => false
  end.

Definition array_index (k : string) : option nat :=
  match parse_uint k with
  | Some n => if (n <? MAX_ARRAY_INDEX)%N then Some (N.to_nat n) else None
  | None => None
  end.

(** *** Reading and writing one property *)

Section Node.
Context {A : Type}.

Definition node_get (n : node A) (k : string) : option A :=
  prop_get (props n) k.

(** [n[k] = a]; writing at or beyond the end of an array moves its
    [length]. *)
Definition node_assign (n : node A) (k : string) (a : A) : node A :=
  match n with
  | Obj ps => Obj (prop_set ps k a)
  | Arr len ps =>
      Arr (match array_index k with
           | Some i => len `max` S i
           | None => len
           end)
          (prop_set ps k a)
  end.

(** [n.push(a)]: only an array has the method. *)
Definition node_push (n : node A) (a : A) : option (node A) :=
  match n with
  | Obj _ => None
  | Arr len ps => Some (Arr (S len) (prop_set ps (pretty len) a))
  end.
End Node.

(** [o[k]] on a value held by the call, in the store [w]. *)
Definition get_prop (w : world) (v : value) (k : string) : value :=
  match v with
  | VPrim _ => undefined
  | VNode n => default undefined (node_get n k)
  | VRef l =>
      match w !! l with
      | Some o => default undefined (of_wvalue <$> node_get o k)
      | None => undefined
      end
  end.

(** [value === null || typeof value === 'undefined'] *)
Definition absent (v : value) : bool :=
  match v with
  | VPrim PUndefined | VPrim PNull => true
  | _ => false
  end.

(** [!v] *)
Definition falsy (v : value) : bool :=
  match v with
  | VPrim PUndefined | VPrim PNull | VPrim PNaN => true
  | VPrim (PBool b) => negb b
  | VPrim (PNum z) => (z =? 0)%Z
  | VPrim (PStr s) => bool_decide (s = "")
  | VNode _ | VRef _ => false
  end.

End Js.

(** ** [lodash.set]

    [set(object, path, value)] turns the path string into a list of keys
    and walks it from [object], keeping every object it meets, replacing
    anything else by a new container, and assigning [value] at the last key.
    Destination keys are dot-delimited, and this is the part of [lodash]'s
    path grammar that [stringToPath] covers here (there is no [a[0]]
    bracket form). *)

Module Lodash.
Import Js.

(** The first key of a dotted string and the keys after it. *)
Fixpoint segments (s : string) : string * list string :=
  match s with
  | EmptyString => (EmptyString, [])
  | String c s' =>
      let '(hd, tl) := segments s' in
      if decide (c = "."%char) then (EmptyString, hd :: tl)
      else (String c hd, tl)
  end.

(** The keys of a dotted string; there is always at least one. *)
Definition key_path (s : string) : list string :=
  let '(hd, tl) := segments s in hd :: tl.

Definition stringToPath (s : string) : list string :=
  match s with
  | EmptyString => []
  | _ => key_path s
  end.

(** The container [baseSet] creates for a missing or non-object step:
    [isIndex(path[index + 1]) ? [] : {}]. *)
Definition container {A : Type} (next : string) : node A :=
  if isIndex next then Arr 0 [] else Obj [].

(** Storing a value of the call into an object of the store: the trees it
    owns get an address. *)
Fixpoint intern (v : value) (w : world) {struct v} : world * wvalue :=
  match v with
  | VPrim p => (w, WPrim p)
  | VRef l => (w, WRef l)
  | VNode n =>
      let intern_props :=
        fix go (ps : list (string * value)) (w : world)
          : world * list (string * wvalue) :=
          match ps with
          | [] => (w, [])
          | (k, x) :: ps' =>
              let '(w1, x') := intern x w in
              let '(w2, r) := go ps' w1 in
              (w2, (k, x') :: r)
          end in
      let '(w1, n') :=
        match n with
        | Obj ps =>
            let '(w1, ps') := intern_props ps w in (w1, Obj ps')
        | Arr len ps =>
            let '(w1, ps') := intern_props ps w in (w1, Arr len ps')
        end in
      (w1 ++ [n'], WRef (length w1))
  end.

(** The walk of [baseSet] once it has entered an object of the store. *)
Fixpoint baseSet_world (w : world) (l : loc) (path : list string) (v : value)
  : world :=
  match path with
  | [] => w
  | key :: rest =>
      match w !! l with
      | None => w
      | Some o =>
          match rest with
          | [] =>
              let '(w1, x) := intern v w in
              <[l := node_assign o key x]> w1
          | next :: _ =>
              match node_get o key with
              | Some (WRef l') => baseSet_world w l' rest v
              | _ =>
                  let l' := length w in
                  let w1 := <[l := node_assign o key (WRef l')]> w in
                  baseSet_world (w1 ++ [container next]) l' rest v
              end
          end
      end
  end.

(** The walk of [baseSet] through the objects the call owns:

    [[
    while (nested != null && ++index < length) {
      var key = toKey(path[index]), newValue = value;
      if (index != lastIndex) {
        var objValue = nested[key];
        newValue = isObject(objValue) ? objValue
                 : (isIndex(path[index + 1]) ? [] : {});
      }
      assignValue(nested, key, newValue);
      nested = nested[key];
    }
    ]] *)
Fixpoint baseSet (w : world) (nested : node value) (path : list string)
    (v : value) : world * node value :=
  match path with
  | [] => (w, nested)
  | key :: rest =>
      match rest with
      | [] => (w, node_assign nested key v)
      | next :: _ =>
          match node_get nested key with
          | Some (VNode child) =>
              let '(w', child') := baseSet w child rest v in
              (w', node_assign nested key (VNode child'))
          | Some (VRef l) => (baseSet_world w l rest v, nested)
          | _ =>
              let '(w', child') := baseSet w (container next) rest v in
              (w', node_assign nested key (VNode child'))
          end
      end
  end.

Definition set (w : world) (object : node value) (path : string) (v : value)
  : world * node value :=
  baseSet w object (stringToPath path) v.

End Lodash.

(** ** The mapper *)

Module Mapper.
Import Js Lodash.

(** Whatever a [throw] or a rejected promise carries. *)
Inductive error : Type :=
| Error (message : string)
| TypeError (message : string)
| Thrown (v : value).

(** What a resolver function does when it is called: it throws, or it
    returns something that [await] settles after [delay] turns of the job
    queue, a plain value after none.  Continuations run in the order in
    which their awaited results settle, and in creation order among those
    that settle together. *)
Inductive settled : Type :=
| Fulfilled (v : value)
| RejectedWith (e : error).

Inductive resolution : Type :=
| Throws (e : error)
| Settles (delay : nat) (s : settled).

(** A source instruction: [typeof sourceInstruction === 'function'] or a
    key of the source record.  A resolver reads the store through the
    source record it is given. *)
Inductive instruction : Type :=
| FieldRef (name : string)
| Resolver (f : world → loc → resolution).

(** One section of the configuration, as [Object.entries] enumerates it. *)
Abbreviation section_entries := (list (string * instruction)).

Record MagentoMapper := { mapping : gmap string section_entries }.

Definition createMapper (mappingConfig : gmap string section_entries)
  : MagentoMapper :=
  {| mapping := mappingConfig |}.

(** How one entry was resolved: the key read off the source record and
    what was found there, or the argument the resolver was called with and
    what the call did. *)
Inductive resolved : Type :=
| ReadField (name : string) (v : value)
| Called (arg : loc) (r : resolution).

Record trace_entry := {
  t_section : string;
  t_key : string;
  t_resolved : resolved;
}.

(** The state of one call of [transform]: the store, the payload under
    construction, the first rejection among the per-entry promises, and the
    resolutions made so far, in the order of the loop. *)
Record state := {
  st_world : world;
  magentoPayload : node value;
  st_rejection : option error;
  st_trace : list trace_entry;
}.

(** A resolver result that is still awaited. *)
Record pending := {
  p_delay : nat;
  p_section : string;
  p_key : string;
  p_settled : settled;
}.

Inductive outcome : Type :=
| Returned (payload : node value)
| Rejected (e : error).

Record result := {
  r_world : world;
  r_trace : list trace_entry;
  r_outcome : outcome;
}.

Definition initial_payload : node value :=
  Obj [("product", VNode (Obj [("custom_attributes", VNode (Arr 0 []))]))].

Definition sections : list string :=
  ["core"; "extensionAttributes"; "customAttributes"].

Definition sku_error : error :=
  Error "Mapping failed to generate a SKU for the product.".

Definition push_error : error :=
  TypeError "magentoPayload.product.custom_attributes.push is not a function".

(** The promise of an entry rejects; [Promise.all] keeps the first. *)
Definition reject (e : error) (st : state) : state :=
  match st_rejection st with
  | Some _ => st
  | None =>
      {| st_world := st_world st; magentoPayload := magentoPayload st;
         st_rejection := Some e; st_trace := st_trace st |}
  end.

Definition with_payload (w : world) (p : node value) (st : state) : state :=
  {| st_world := w; magentoPayload := p;
     st_rejection := st_rejection st; st_trace := st_trace st |}.

Definition attribute (code : string) (v : value) : value :=
  VNode (Obj [("attribute_code", str code); ("value", v)]).

(** [magentoPayload.product.custom_attributes.push({...})] *)
Definition push_custom_attribute (code : string) (v : value) (st : state)
  : state :=
  match node_get (magentoPayload st) "product" with
  | Some (VNode product) =>
      match node_get product "custom_attributes" with
      | Some (VNode attrs) =>
          match node_push attrs (attribute code v) with
          | Some attrs' =>
              with_payload (st_world st)
                (node_assign (magentoPayload st) "product"
                   (VNode (node_assign product "custom_attributes"
                             (VNode attrs'))))
                st
          | None => reject push_error st
          end
      | Some (VRef l) =>
          match st_world st !! l with
          | Some o =>
              let '(w1, x) := intern (attribute code v) (st_world st) in
              match node_push o x with
              | Some o' => with_payload (<[l := o']> w1) (magentoPayload st) st
              | None => reject push_error st
              end
          | None => reject push_error st
          end
      | _ => reject push_error st
      end
  | _ => reject push_error st
  end.

Definition destinationPath (section magentoPath : string) : string :=
  "product." +:+
  (if decide (section = "extensionAttributes") then "extension_attributes."
   else "") +:+ magentoPath.

(** The tail of the per-entry function, from the test on [value] on. *)
Definition commit (section magentoPath : string) (v : value) (st : state)
  : state :=
  if absent v then st
  else if decide (section = "customAttributes") then
    push_custom_attribute magentoPath v st
  else
    let '(w, p) :=
      set (st_world st) (magentoPayload st)
        (destinationPath section magentoPath) v in
    with_payload w p st.

Definition log (section magentoPath : string) (r : resolved) (st : state)
  : state :=
  {| st_world := st_world st; magentoPayload := magentoPayload st;
     st_rejection := st_rejection st;
     st_trace := st_trace st ++ [{| t_section := section;
                                    t_key := magentoPath;
                                    t_resolved := r |}] |}.

(** The per-entry function up to its first [await]: a field reference runs
    to its end at once, a resolver is called and its result awaited. *)
Definition launch (sourceObject : loc) (section : string)
    (acc : state * list pending) (entry : string * instruction)
  : state * list pending :=
  let '(st, queue) := acc in
  let '(magentoPath, sourceInstruction) := entry in
  match sourceInstruction with
  | Resolver f =>
      let r := f (st_world st) sourceObject in
      let st' := log section magentoPath (Called sourceObject r) st in
      match r with
      | Throws e => (reject e st', queue)
      | Settles d s =>
          (st', queue ++ [{| p_delay := d; p_section := section;
                             p_key := magentoPath; p_settled := s |}])
      end
  | FieldRef name =>
      let v := get_prop (st_world st) (VRef sourceObject) name in
      let st' := log section magentoPath (ReadField name v) st in
      (commit section magentoPath v st', queue)
  end.

(** [Object.entries(this.mapping[section] || {})] *)
Definition entries (this : MagentoMapper) (section : string)
  : section_entries :=
  default [] (mapping this !! section).

Definition launch_section (this : MagentoMapper) (sourceObject : loc)
    (acc : state * list pending) (section : string) : state * list pending :=
  fold_left (launch sourceObject section) (entries this section) acc.

(** The order in which awaited results settle. *)
Fixpoint enqueue (p : pending) (queue : list pending) : list pending :=
  match queue with
  | [] => [p]
  | q :: queue' =>
      if decide (p_delay p ≤ p_delay q) then p :: q :: queue'
      else q :: enqueue p queue'
  end.

Definition schedule (queue : list pending) : list pending :=
  foldr enqueue [] queue.

(** The per-entry function after its [await]. *)
Definition resume (st : state) (p : pending) : state :=
  match p_settled p with
  | Fulfilled v => commit (p_section p) (p_key p) v st
  | RejectedWith e => reject e st
  end.

Definition initial_state (w : world) : state :=
  {| st_world := w; magentoPayload := initial_payload;
     st_rejection := None; st_trace := [] |}.

(** All per-entry promises settled: the state [Promise.all] leaves. *)
Definition run (this : MagentoMapper) (w : world) (sourceObject : loc)
  : state :=
  let '(st, queue) :=
    fold_left (launch_section this sourceObject) sections
      (initial_state w, []) in
  fold_left resume (schedule queue) st.

Definition sku (st : state) : value :=
  get_prop (st_world st)
    (get_prop (st_world st) (VNode (magentoPayload st)) "product") "sku".

(** [transform]: the promise rejects with the first rejection among the
    entries, or with the SKU error, or fulfils with the payload.  The store
    in the result is the one left when every continuation has run. *)
Definition transform (this : MagentoMapper) (w : world) (sourceObject : loc)
  : result :=
  let st := run this w sourceObject in
  {| r_world := st_world st;
     r_trace := st_trace st;
     r_outcome :=
       match st_rejection st with
       | Some e => Rejected e
       | None => if falsy (sku st) then Rejected sku_error
                 else Returned (magentoPayload st)
       end |}.

End Mapper.

(** ** Notions used to state the properties *)

Module Spec.
Import Js Lodash Mapper.

(** Reading a path through the objects a value owns, without following
    references into the store. *)
Fixpoint tree_get (v : value) (path : list string) : option value :=
  match path with
  | [] => Some v
  | k :: rest =>
      match v with
      | VNode n =>
          match node_get n k with
          | Some c => tree_get c rest
          | None => None
          end
      | _ => None
      end
  end.

(** The walk along [path] from [v] stays within owned objects: no key
    before the last one holds a reference into the store. *)
Fixpoint owned_walk (v : value) (path : list string) : Prop :=
  match path with
  | [] => True
  | k :: rest =>
      match v with
      | VNode n =>
          match rest, node_get n k with
          | _ :: _, Some (VRef _) => False
          | _ :: _, Some c => owned_walk c rest
          | _, _ => True
          end
      | _ => True
      end
  end.

(** Two paths part ways: neither leads to, or through, the place the
    other names. *)
Fixpoint diverge (p q : list string) : Prop :=
  match p, q with
  | k1 :: p', k2 :: q' => if decide (k1 = k2) then diverge p' q' else True
  | _, _ => False
  end.

(** [p] leads to a place strictly above [q]: [q] goes through [p] and
    further. *)
Fixpoint strictly_above (p q : list string) : bool :=
  match p, q with
  | [], _ :: _ => true
  | k1 :: p', k2 :: q' => bool_decide (k1 = k2) && strictly_above p' q'
  | _, _ => false
  end.

(** Every reference into the store that the tree [t] holds sits at, or
    below, one of the places [places]. *)
Definition clear_of (places : list (list string)) (t : value) : Prop :=
  ∀ q l, tree_get t q = Some (VRef l) →
         ∃ p, p ∈ places ∧ p `prefix_of` q.

(** The entries of the three sections in the order of the loop. *)
Definition tasks (this : MagentoMapper)
  : list (string * (string * instruction)) :=
  s ← sections; pair s <$> entries this s.

Definition launch_task (sourceObject : loc) (acc : state * list pending)
    (t : string * (string * instruction)) : state * list pending :=
  launch sourceObject t.1 acc t.2.

(** The keys of a path section, as full paths from the payload. *)
Definition destination (section magentoPath : string) : list string :=
  stringToPath (destinationPath section magentoPath).

(** A resolution that yields no value to write. *)
Definition resolved_value (r : resolved) : option value :=
  match r with
  | ReadField _ v => Some v
  | Called _ (Settles _ (Fulfilled v)) => Some v
  | Called _ _ => None
  end.

Definition failure (r : resolved) : option error :=
  match r with
  | Called _ (Throws e) => Some e
  | Called _ (Settles _ (RejectedWith e)) => Some e
  | _ => None
  end.

(** *** A run as a sequence of events

    Everything a call does to the payload, the store and the first
    rejection is a commit or a rejection; the trace says which ones, and in
    which order: those of the loop, then those of the continuations. *)
Inductive event : Type :=
| ECommit (section key : string) (v : value)
| EReject (e : error).

Definition perform (st : state) (ev : event) : state :=
  match ev with
  | ECommit section key v => commit section key v st
  | EReject e => reject e st
  end.

Definition sync_event (t : trace_entry) : option event :=
  match t_resolved t with
  | ReadField _ v => Some (ECommit (t_section t) (t_key t) v)
  | Called _ (Throws e) => Some (EReject e)
  | Called _ (Settles _ _) => None
  end.

Definition pending_of (t : trace_entry) : option pending :=
  match t_resolved t with
  | Called _ (Settles d s) =>
      Some {| p_delay := d; p_section := t_section t; p_key := t_key t;
              p_settled := s |}
  | _ => None
  end.

Definition async_event (p : pending) : event :=
  match p_settled p with
  | Fulfilled v => ECommit (p_section p) (p_key p) v
  | RejectedWith e => EReject e
  end.

Definition events (trace : list trace_entry) : list event :=
  omap sync_event trace ++ (async_event <$> schedule (omap pending_of trace)).

(** The error of the first rejection among events. *)
Definition rejection_of (ev : event) : option error :=
  match ev with
  | EReject e => Some e
  | ECommit _ _ _ => None
  end.

Definition first_failure (evs : list event) : option error :=
  head (omap rejection_of evs).

(** A state without its trace. *)
Definition erase (st : state) : state :=
  {| st_world := st_world st; magentoPayload := magentoPayload st;
     st_rejection := st_rejection st; st_trace := [] |}.

(** What the loop has done so far is what the trace says. *)
Definition launched (w : world) (acc : state * list pending) : Prop :=
  erase acc.1
  = fold_left perform (omap sync_event (st_trace acc.1)) (erase (initial_state w))
  ∧ acc.2 = omap pending_of (st_trace acc.1).

(** A trace entry is the resolution of a given entry of the
    configuration: same section, same key, the named field read or the
    resolver called on the source record, in some store. *)
Definition resolves (sourceObject : loc)
    (task : string * (string * instruction)) (t : trace_entry) : Prop :=
  t_section t = task.1 ∧ t_key t = task.2.1 ∧
  match task.2.2 with
  | FieldRef name =>
      ∃ w, t_resolved t = ReadField name (get_prop w (VRef sourceObject) name)
  | Resolver f => ∃ w, t_resolved t = Called sourceObject (f w sourceObject)
  end.

(** The payload is an object whose only key is [product], itself an
    object. *)
Definition product_of (p : node value) : option (node value) :=
  match p with
  | Obj [(k, VNode product)] =>
      if decide (k = "product") then Some product else None
  | _ => None
  end.

Definition envelope (product : node value) : node value :=
  Obj [("product", VNode product)].

(** The order of the schedule. *)
Definition by_delay (p q : pending) : Prop := p_delay p ≤ p_delay q.

(** *** Leaving an entry out *)

(** The trace entry of a task launched in the store [w]. *)
Definition resolve_task (sourceObject : loc) (w : world)
    (task : string * (string * instruction)) : trace_entry :=
  {| t_section := task.1;
     t_key := task.2.1;
     t_resolved :=
       match task.2.2 with
       | FieldRef name => ReadField name (get_prop w (VRef sourceObject) name)
       | Resolver f => Called sourceObject (f w sourceObject)
       end |}.

Definition record (t : trace_entry) (st : state) : state :=
  {| st_world := st_world st; magentoPayload := magentoPayload st;
     st_rejection := st_rejection st; st_trace := st_trace st ++ [t] |}.

(** The configuration without the key [key] of section [section]. *)
Definition remove_key (section key : string) (this : MagentoMapper)
  : MagentoMapper :=
  createMapper
    (alter (filter (λ entry : string * instruction, entry.1 ≠ key)) section
       (mapping this)).

Definition other_task (section key : string)
    (task : string * (string * instruction)) : Prop :=
  ¬ (task.1 = section ∧ task.2.1 = key).

Definition other_entry (section key : string) (t : trace_entry) : Prop :=
  ¬ (t_section t = section ∧ t_key t = key).

Definition other_pending (section key : string) (p : pending) : Prop :=
  ¬ (p_section p = section ∧ p_key p = key).

#[global] Instance other_task_dec section key task :
  Decision (other_task section key task).
Proof. unfold other_task. apply _. Defined.

#[global] Instance other_entry_dec section key t :
  Decision (other_entry section key t).
Proof. unfold other_entry. apply _. Defined.

#[global] Instance other_pending_dec section key p :
  Decision (other_pending section key p).
Proof. unfold other_pending. apply _. Defined.

(** An entry that resolved to [null] or [undefined]. *)
Definition resolved_absent (t : trace_entry) : Prop :=
  ∃ v, resolved_value (t_resolved t) = Some v ∧ absent v = true.

(** A continuation that has nothing to write. *)
Definition idle (p : pending) : Prop :=
  ∃ v, p_settled p = Fulfilled v ∧ absent v = true.

(** An event that leaves the place [path] of the payload as it is: it
    writes nothing, or appends to the list while [path] is elsewhere
    under [product], or writes along a path that parts ways with [path]. *)
Definition leaves (path : list string) (ev : event) : Prop :=
  match ev with
  | EReject _ => True
  | ECommit section key v =>
      absent v = true
      ∨ (if decide (section = "customAttributes")
         then ∃ k rest, path = "product" :: k :: rest
                        ∧ k ≠ "custom_attributes"
         else diverge (destination section key) path)
  end.

(** *** The flat list *)

(** A JavaScript array holding [rs]: keys [0], [1], ... in order. *)
Definition indexed (rs : list value) : list (string * value) :=
  imap (λ i r, (pretty i, r)) rs.

Definition js_array (rs : list value) : value :=
  VNode (Arr (length rs) (indexed rs)).

Definition is_custom (section : string) : bool :=
  bool_decide (section = "customAttributes").

(** The record an event appends to [custom_attributes], if any. *)
Definition pushed_by (ev : event) : option value :=
  match ev with
  | ECommit section key v =>
      if is_custom section && negb (absent v) then Some (attribute key v)
      else None
  | EReject _ => None
  end.

(** A key of a path section that writes at or below
    [product.custom_attributes]. *)
Definition on_custom_attributes (section key : string) : bool :=
  negb (is_custom section)
  && bool_decide (destination section key !! 1 = Some "custom_attributes").

Definition overwrites_list (ev : event) : bool :=
  match ev with
  | ECommit section key v => on_custom_attributes section key
  | EReject _ => false
  end.

(** No key of the [core] section leads to [custom_attributes]. *)
Definition list_untouched (this : MagentoMapper) : bool :=
  forallb (λ entry, negb (on_custom_attributes "core" entry.1))
    (entries this "core").

Definition pushed (evs : list event) : list value := omap pushed_by evs.

Definition loop_events (trace : list trace_entry) : list event :=
  omap sync_event trace.

Definition settle_events (trace : list trace_entry) : list event :=
  async_event <$> schedule (omap pending_of trace).

(** The records of the entries that resolved to a value, in the order in
    which the configuration declares them. *)
Definition declared_event (t : trace_entry) : option event :=
  ECommit (t_section t) (t_key t) <$> resolved_value (t_resolved t).

Definition declared_records (trace : list trace_entry) : list value :=
  pushed (omap declared_event trace).

(** The part of a trace or of a queue that belongs to the flat section. *)
Definition custom_entry (t : trace_entry) : Prop :=
  t_section t = "customAttributes".

Definition custom_pending (p : pending) : Prop :=
  p_section p = "customAttributes".

#[global] Instance custom_entry_dec t : Decision (custom_entry t).
Proof. unfold custom_entry. apply _. Defined.

#[global] Instance custom_pending_dec p : Decision (custom_pending p).
Proof. unfold custom_pending. apply _. Defined.

Definition custom_task (task : string * (string * instruction)) : Prop :=
  task.1 = "customAttributes".

#[global] Instance custom_task_dec task : Decision (custom_task task).
Proof. unfold custom_task. apply _. Defined.

Definition is_field_ref (i : instruction) : bool :=
  match i with
  | FieldRef _ => true
  | Resolver _ => false
  end.

(** An entry that resolved to a value that is written. *)
Definition resolved_present (t : trace_entry) : Prop :=
  ∃ v, resolved_value (t_resolved t) = Some v ∧ absent v = false.

Definition record_of (t : trace_entry) : value :=
  attribute (t_key t) (default undefined (resolved_value (t_resolved t))).

Definition is_read (t : trace_entry) : bool :=
  match t_resolved t with
  | ReadField _ _ => true
  | Called _ _ => false
  end.

(** *** Configurations whose paths keep apart *)

Definition list_path : list string := ["product"; "custom_attributes"].

(** The places the path sections write to. *)
Definition path_destinations (this : MagentoMapper) : list (list string) :=
  omap (λ task : string * (string * instruction),
          if is_custom task.1 then None
          else Some (destination task.1 task.2.1))
    (tasks this).

(** No key of a path section leads to the flat list, and none leads
    through the place another one writes to. *)
Definition separated (this : MagentoMapper) : bool :=
  list_untouched this
  && forallb (λ p, forallb (λ q, negb (strictly_above p q))
                     (path_destinations this))
       (path_destinations this).

(** The state of a call that has not written to the store [w]: the
    payload has its envelope and its list, and holds references only at
    or below [places]. *)
Definition settled_state (places : list (list string)) (w : world)
    (st : state) : Prop :=
  st_world st = w
  ∧ ∃ product rs,
      magentoPayload st = envelope product
      ∧ node_get product "custom_attributes" = Some (js_array rs)
      ∧ clear_of places (VNode (magentoPayload st)).

(** An event that writes to the list, or to one of [places] that none
    of them guards. *)
Definition admissible (places : list (list string)) (ev : event) : Prop :=
  match ev with
  | EReject _ => True
  | ECommit section key v =>
      section = "customAttributes"
      ∨ (on_custom_attributes section key = false
         ∧ destination section key ∈ places
         ∧ ∀ p, p ∈ places → strictly_above p (destination section key) = false)
  end.

End Spec.

(** ** Sample records and configurations *)

Module Examples.
Import Js Lodash Mapper Spec.

(** [{ id: 'X1' }] *)
Definition record_x1 : node wvalue := Obj [("id", WPrim (PStr "X1"))].

(** [core: { sku: 'id' }] *)
Definition sku_only : MagentoMapper :=
  createMapper {[ "core" := [("sku", FieldRef "id")] ]}.

Definition boom : error := Error "boom".

(** [core: { sku: 'id', name: () => { throw new Error('boom') } }] *)
Definition throwing : MagentoMapper :=
  createMapper {[ "core" := [("sku", FieldRef "id");
                             ("name", Resolver (λ _ _, Throws boom))] ]}.

(** A record of the ERP, and a configuration whose flat section declares
    a resolver before a field reference:

    [[
    core: { sku: 'productId' },
    customAttributes: { brand: () => '124', description: 'description_2' }
    ]] *)
Definition erp_record : node wvalue :=
  Obj [("productId", WPrim (PStr "NK-SHOE-RED-10"));
       ("description_2", WPrim (PStr "The best running shoe."))].

Definition mixed : MagentoMapper :=
  createMapper
    {[ "core" := [("sku", FieldRef "productId")];
       "customAttributes" :=
         [("brand", Resolver (λ _ _, Settles 0 (Fulfilled (str "124"))));
          ("description", FieldRef "description_2")] ]}.

Definition mixed_payload : node value :=
  envelope
    (Obj [("custom_attributes",
           js_array [attribute "description" (str "The best running shoe.");
                     attribute "brand" (str "124")]);
          ("sku", str "NK-SHOE-RED-10")]).

(** [{ inventory: 7 }], and a configuration with the stock entry next to
    a constant SKU:

    [[
    core: { sku: () => 'S1' },
    extensionAttributes: { 'stock_item.qty': 'inventory' }
    ]] *)
Definition inventory_7 : node wvalue := Obj [("inventory", WPrim (PNum 7))].

Definition stock : MagentoMapper :=
  createMapper
    {[ "core" := [("sku", Resolver (λ _ _, Settles 0 (Fulfilled (str "S1"))))];
       "extensionAttributes" := [("stock_item.qty", FieldRef "inventory")] ]}.

Definition stock_payload : node value :=
  envelope
    (Obj [("custom_attributes", js_array []);
          ("extension_attributes",
           VNode (Obj [("stock_item", VNode (Obj [("qty", num 7)]))]));
          ("sku", str "S1")]).

(** A configuration one of whose fields the record [{ id: 'X1' }] does
    not have:

    [[
    core: { sku: 'id', name: 'title' },
    customAttributes: { colour: 'shade' }
    ]] *)
Definition sparse : MagentoMapper :=
  createMapper {[ "core" := [("sku", FieldRef "id"); ("name", FieldRef "title")];
                  "customAttributes" := [("colour", FieldRef "shade")] ]}.

(** A source record that holds an object, [{ id: 'X1', obj: {} }], and a
    configuration that places this object in the payload and then writes
    beneath it:

    [[
    core: { sku: 'id', a: 'obj', 'a.b': 'id' }
    ]] *)
Definition nested_store : world :=
  [Obj [("id", WPrim (PStr "X1")); ("obj", WRef 1)]; Obj []].

Definition shared : MagentoMapper :=
  createMapper {[ "core" := [("sku", FieldRef "id"); ("a", FieldRef "obj");
                             ("a.b", FieldRef "id")] ]}.

(** The same with a resolver that reads the object:
    [flag: (source) => source.obj.b ? 'second' : 'first']. *)
Definition flag (w : world) (sourceObject : loc) : resolution :=
  Settles 0
    (Fulfilled
       (if falsy (get_prop w (get_prop w (VRef sourceObject) "obj") "b")
        then str "first" else str "second")).

Definition flagged : MagentoMapper :=
  createMapper {[ "core" := [("sku", FieldRef "id"); ("a", FieldRef "obj");
                             ("flag", Resolver flag);
                             ("a.b", FieldRef "id")] ]}.

End Examples.

(** ** Further notions *)

Module More.
Import Js Lodash Mapper Spec.

(** Some key of [core] writes at, or below, [product.sku]. *)
Definition supplies_sku (this : MagentoMapper) : bool :=
  existsb (λ entry : string * instruction,
             bool_decide (head (key_path entry.1) = Some "sku"))
    (entries this "core").

(** [core: { sku: <name> }] *)
Definition sku_from (name : string) : MagentoMapper :=
  createMapper {[ "core" := [("sku", FieldRef name)] ]}.

(** [extensionAttributes: { 'stock_item.qty': 'inventory' }] alone. *)
Definition stock_only : MagentoMapper :=
  createMapper
    {[ "extensionAttributes" := [("stock_item.qty", FieldRef "inventory")] ]}.

(** Two states that hold the same store and the same payload. *)
Definition same_data (st st' : state) : Prop :=
  st_world st = st_world st' ∧ magentoPayload st = magentoPayload st'.

Definition is_commit (ev : event) : Prop := rejection_of ev = None.

#[global] Instance is_commit_dec ev : Decision (is_commit ev).
Proof. unfold is_commit. apply _. Defined.

(** The property tables [intern] builds for an object. *)
Fixpoint intern_props (ps : list (string * value)) (w : world)
  : world * list (string * wvalue) :=
  match ps with
  | [] => (w, [])
  | (k, x) :: ps' =>
      let '(w1, x') := intern x w in
      let '(w2, r) := intern_props ps' w1 in
      (w2, (k, x') :: r)
  end.

(** An object of the store after a call, compared with what it was: it
    is of the same kind, an array has not shrunk, and every key it had is
    still there. *)
Definition keeps (o o' : node wvalue) : Prop :=
  match o, o' with
  | Obj _, Obj _ => True
  | Arr len _, Arr len' _ => len ≤ len'
  | _, _ => False
  end
  ∧ ∀ k, is_Some (node_get o k) → is_Some (node_get o' k).

(** A store that has only grown: every object is still at its address. *)
Definition extends (w w' : world) : Prop :=
  ∀ l o, w !! l = Some o → ∃ o', w' !! l = Some o' ∧ keeps o o'.

(** A value that holds no reference into the store: a primitive, or data
    built for the occasion. *)
Definition ref_free (v : value) : Prop := clear_of [] v.

(** A configuration that writes beneath one of its own places:

    [[
    core: { sku: 'id', a: 'id', 'a.b': 'id' }
    ]] *)
Definition stacked : MagentoMapper :=
  createMapper {[ "core" := [("sku", FieldRef "id"); ("a", FieldRef "id");
                             ("a.b", FieldRef "id")] ]}.

End More.

(** ** Property tables and paths *)

Module JsFacts.
Import Js Lodash Spec.

Section Table.
Context {A : Type}.
Implicit Types (ps : list (string * A)) (n : node A) (k : string) (a : A).

Lemma prop_get_set ps k a k' :
  prop_get (prop_set ps k a) k'
  = if decide (k = k') then Some a else prop_get ps k'.
Proof.
  induction ps as [|[k0 a0] ps IH]; simpl.
  - repeat case_decide; congruence.
  - destruct (decide (k0 = k)) as [->|Hne]; simpl.
    + repeat case_decide; congruence.
    + rewrite IH. repeat case_decide; congruence.
Qed.

Lemma prop_get_set_eq ps k a : prop_get (prop_set ps k a) k = Some a.
Proof. rewrite prop_get_set. by rewrite decide_True. Qed.

Lemma prop_get_set_ne ps k a k' :
  k ≠ k' → prop_get (prop_set ps k a) k' = prop_get ps k'.
Proof. intros. rewrite prop_get_set. by rewrite decide_False. Qed.

Lemma props_assign n k a : props (node_assign n k a) = prop_set (props n) k a.
Proof. by destruct n. Qed.

Lemma node_get_assign n k a k' :
  node_get (node_assign n k a) k'
  = if decide (k = k') then Some a else node_get n k'.
Proof. unfold node_get. by rewrite props_assign, prop_get_set. Qed.

Lemma node_get_assign_eq n k a : node_get (node_assign n k a) k = Some a.
Proof. rewrite node_get_assign. by rewrite decide_True. Qed.

Lemma node_get_assign_ne n k a k' :
  k ≠ k' → node_get (node_assign n k a) k' = node_get n k'.
Proof. intros. rewrite node_get_assign. by rewrite decide_False. Qed.

(** Writing back what is there changes nothing. *)
Lemma prop_set_same ps k a : prop_get ps k = Some a → prop_set ps k a = ps.
Proof.
  induction ps as [|[k0 a0] ps IH]; simpl; [done|].
  destruct (decide (k0 = k)) as [->|Hne]; [congruence|].
  intros H. by rewrite IH.
Qed.
End Table.

(** A destination path always starts at [product] and has a key below it. *)
Lemma key_path_cons s : ∃ k ks, key_path s = k :: ks.
Proof. unfold key_path. destruct (segments s). eauto. Qed.

Lemma append_cons c a b : String c a +:+ b = String c (a +:+ b).
Proof. reflexivity. Qed.

Lemma append_nil b : "" +:+ b = b.
Proof. reflexivity. Qed.

Lemma stringToPath_product s :
  stringToPath ("product." +:+ s) = "product" :: key_path s.
Proof.
  unfold stringToPath, key_path. rewrite !append_cons, !append_nil.
  simpl segments. by destruct (segments s).
Qed.

Lemma stringToPath_extension s :
  stringToPath ("product." +:+ "extension_attributes." +:+ s)
  = "product" :: "extension_attributes" :: key_path s.
Proof.
  unfold stringToPath, key_path. rewrite !append_cons, !append_nil.
  simpl segments. by destruct (segments s).
Qed.

Lemma destination_extension k :
  destination "extensionAttributes" k
  = "product" :: "extension_attributes" :: key_path k.
Proof.
  unfold destination, Mapper.destinationPath.
  rewrite decide_True by done. apply stringToPath_extension.
Qed.

Lemma destination_other section k :
  section ≠ "extensionAttributes" →
  destination section k = "product" :: key_path k.
Proof.
  intros Hne. unfold destination, Mapper.destinationPath.
  rewrite decide_False by done. rewrite append_nil.
  apply stringToPath_product.
Qed.

End JsFacts.

(** ** The shape of a run *)

Module RunFacts.
Import Js Lodash Mapper Spec JsFacts.

Lemma fold_left_fmap {A B C} (f : A → B → A) (g : C → B) l acc :
  fold_left f (g <$> l) acc = fold_left (λ a x, f a (g x)) l acc.
Proof. revert acc. induction l; simpl; auto. Qed.

(** The two nested loops are one pass over [tasks]. *)
Lemma launch_sections this sourceObject acc :
  fold_left (launch_section this sourceObject) sections acc
  = fold_left (launch_task sourceObject) (tasks this) acc.
Proof.
  unfold tasks, sections, launch_section. simpl.
  rewrite !fold_left_app, !fold_left_fmap. reflexivity.
Qed.

Lemma run_tasks this w sourceObject :
  run this w sourceObject
  = let '(st, queue) :=
      fold_left (launch_task sourceObject) (tasks this) (initial_state w, [])
    in fold_left resume (schedule queue) st.
Proof. unfold run. by rewrite launch_sections. Qed.

(** Only the entries found under the three section names matter. *)
Lemma tasks_ext this this' :
  (∀ s, s ∈ sections → entries this s = entries this' s) →
  tasks this = tasks this'.
Proof.
  intros H. unfold tasks, sections in *. simpl.
  rewrite !H; [done|set_solver..].
Qed.

Lemma transform_ext this this' w sourceObject :
  (∀ s, s ∈ sections → entries this s = entries this' s) →
  transform this w sourceObject = transform this' w sourceObject.
Proof.
  intros H. unfold transform. rewrite !run_tasks.
  by rewrite (tasks_ext this this').
Qed.

(** *** Commits and rejections do not look at the trace *)

Lemma erase_reject e st : erase (reject e st) = reject e (erase st).
Proof. unfold reject. simpl. by destruct (st_rejection st). Qed.

Lemma erase_with_payload w p st :
  erase (with_payload w p st) = with_payload w p (erase st).
Proof. reflexivity. Qed.

Lemma erase_push code v st :
  erase (push_custom_attribute code v st)
  = push_custom_attribute code v (erase st).
Proof.
  unfold push_custom_attribute. simpl.
  destruct (node_get (magentoPayload st) "product") as [[?|product|?]|];
    try apply erase_reject.
  destruct (node_get product "custom_attributes") as [[?|attrs|l]|];
    try apply erase_reject.
  - destruct (node_push attrs _); [reflexivity|apply erase_reject].
  - destruct (st_world st !! l); [|apply erase_reject].
    destruct (intern _ _).
    destruct (node_push _ _); [reflexivity|apply erase_reject].
Qed.

Lemma erase_commit section key v st :
  erase (commit section key v st) = commit section key v (erase st).
Proof.
  unfold commit. destruct (absent v); [done|].
  case_decide; [apply erase_push|].
  simpl. by destruct (set _ _ _ _).
Qed.

Lemma erase_perform st ev : erase (perform st ev) = perform (erase st) ev.
Proof. destruct ev; [apply erase_commit|apply erase_reject]. Qed.

Lemma erase_log section key r st : erase (log section key r st) = erase st.
Proof. reflexivity. Qed.

Lemma erase_fold_perform evs st :
  erase (fold_left perform evs st) = fold_left perform evs (erase st).
Proof.
  revert st. induction evs as [|ev evs IH]; intros st; simpl; [done|].
  by rewrite IH, erase_perform.
Qed.

Lemma st_trace_reject e st : st_trace (reject e st) = st_trace st.
Proof. unfold reject. by destruct (st_rejection st). Qed.

Lemma st_trace_push code v st :
  st_trace (push_custom_attribute code v st) = st_trace st.
Proof.
  unfold push_custom_attribute.
  destruct (node_get (magentoPayload st) "product") as [[?|product|?]|];
    try apply st_trace_reject.
  destruct (node_get product "custom_attributes") as [[?|attrs|l]|];
    try apply st_trace_reject.
  - destruct (node_push attrs _); [reflexivity|apply st_trace_reject].
  - destruct (st_world st !! l); [|apply st_trace_reject].
    destruct (intern _ _).
    destruct (node_push _ _); [reflexivity|apply st_trace_reject].
Qed.

Lemma st_trace_commit section key v st :
  st_trace (commit section key v st) = st_trace st.
Proof.
  unfold commit. destruct (absent v); [done|].
  case_decide; [apply st_trace_push|].
  by destruct (set _ _ _ _).
Qed.

Lemma st_trace_perform st ev : st_trace (perform st ev) = st_trace st.
Proof. destruct ev; [apply st_trace_commit|apply st_trace_reject]. Qed.

Lemma st_trace_fold_perform evs st :
  st_trace (fold_left perform evs st) = st_trace st.
Proof.
  revert st. induction evs as [|ev evs IH]; intros st; simpl; [done|].
  by rewrite IH, st_trace_perform.
Qed.

Lemma resume_perform st p : resume st p = perform st (async_event p).
Proof. unfold resume, async_event. by destruct (p_settled p). Qed.

Lemma fold_resume_perform ps st :
  fold_left resume ps st = fold_left perform (async_event <$> ps) st.
Proof.
  revert st. induction ps as [|p ps IH]; intros st; simpl; [done|].
  by rewrite IH, resume_perform.
Qed.

(** *** The loop, as events *)

Lemma launched_step w sourceObject acc t :
  launched w acc → launched w (launch_task sourceObject acc t).
Proof.
  destruct acc as [st queue], t as [section [key instr]].
  unfold launched, launch_task, launch. simpl. intros [Hst Hq].
  destruct instr as [name|f].
  - simpl. rewrite st_trace_commit. simpl.
    rewrite !omap_app. simpl.
    rewrite fold_left_app, <- Hst, app_nil_r. simpl.
    by rewrite erase_commit.
  - destruct (f (st_world st) sourceObject) as [e|d s] eqn:Hf; simpl.
    + rewrite st_trace_reject. simpl.
      rewrite !omap_app. simpl.
      rewrite fold_left_app, <- Hst, app_nil_r. simpl.
      by rewrite erase_reject.
    + rewrite !omap_app. simpl.
      by rewrite app_nil_r, Hq.
Qed.

Lemma launched_all w sourceObject ts acc :
  launched w acc → launched w (fold_left (launch_task sourceObject) ts acc).
Proof.
  revert acc. induction ts as [|t ts IH]; intros acc H; simpl; [done|].
  by apply IH, launched_step.
Qed.

(** The state [Promise.all] leaves is the initial state after the events of
    the trace. *)
Lemma run_events this w sourceObject :
  erase (run this w sourceObject)
  = fold_left perform (events (st_trace (run this w sourceObject)))
      (erase (initial_state w)).
Proof.
  rewrite run_tasks.
  pose proof (launched_all w sourceObject (tasks this) (initial_state w, [])) as H.
  destruct (fold_left _ _ _) as [st queue].
  destruct H as [Hst Hq]; [by split|]. simpl in *.
  rewrite fold_resume_perform, st_trace_fold_perform.
  unfold events. rewrite fold_left_app, <- Hst, <- Hq.
  apply erase_fold_perform.
Qed.

(** *** The trace follows the configuration *)

Lemma launch_trace sourceObject acc t :
  ∃ e, st_trace (launch_task sourceObject acc t).1 = st_trace acc.1 ++ [e]
       ∧ resolves sourceObject t e.
Proof.
  destruct acc as [st queue], t as [section [key instr]].
  unfold launch_task, launch. simpl.
  destruct instr as [name|f]; simpl.
  - rewrite st_trace_commit. simpl. eexists; split; [reflexivity|].
    split; [done|split; [done|]]. by exists (st_world st).
  - exists {| t_section := section; t_key := key;
              t_resolved := Called sourceObject (f (st_world st) sourceObject) |}.
    split.
    + destruct (f (st_world st) sourceObject); simpl; [|reflexivity].
      rewrite st_trace_reject. reflexivity.
    + split; [done|split; [done|]]. by exists (st_world st).
Qed.

Lemma launch_all_trace sourceObject ts acc :
  ∃ tr, st_trace (fold_left (launch_task sourceObject) ts acc).1
        = st_trace acc.1 ++ tr
        ∧ Forall2 (resolves sourceObject) ts tr.
Proof.
  revert acc. induction ts as [|t ts IH]; intros acc; simpl.
  - exists []. by rewrite app_nil_r.
  - destruct (launch_trace sourceObject acc t) as (e & He & Hres).
    destruct (IH (launch_task sourceObject acc t)) as (tr & Htr & Hall).
    exists (e :: tr). split; [|by constructor].
    by rewrite Htr, He, <- app_assoc.
Qed.

(** One trace entry per entry of the configuration, in the order of the
    loop. *)
Lemma run_trace this w sourceObject :
  Forall2 (resolves sourceObject) (tasks this)
    (st_trace (run this w sourceObject)).
Proof.
  rewrite run_tasks.
  destruct (launch_all_trace sourceObject (tasks this) (initial_state w, []))
    as (tr & Htr & Hall).
  destruct (fold_left _ _ _) as [st queue]. simpl in *.
  by rewrite fold_resume_perform, st_trace_fold_perform, Htr.
Qed.

End RunFacts.

(** ** What [set] does to the payload *)

Module PayloadFacts.
Import Js Lodash Mapper Spec JsFacts RunFacts.

#[global] Arguments baseSet : simpl never.
#[global] Arguments baseSet_world : simpl never.

Lemma baseSet_last w n key v :
  baseSet w n [key] v = (w, node_assign n key v).
Proof. reflexivity. Qed.

Lemma baseSet_cons w n key next rest v :
  baseSet w n (key :: next :: rest) v
  = match node_get n key with
    | Some (VNode child) =>
        let '(w', child') := baseSet w child (next :: rest) v in
        (w', node_assign n key (VNode child'))
    | Some (VRef l) => (baseSet_world w l (next :: rest) v, n)
    | _ =>
        let '(w', child') := baseSet w (container next) (next :: rest) v in
        (w', node_assign n key (VNode child'))
    end.
Proof. reflexivity. Qed.

(** One step of the walk either leaves the object alone (the walk went
    into the store) or assigns its first key. *)
Lemma baseSet_shape w n key rest v :
  (baseSet w n (key :: rest) v).2 = n
  ∨ ∃ x, (baseSet w n (key :: rest) v).2 = node_assign n key x.
Proof.
  destruct rest as [|next rest]; [rewrite baseSet_last; simpl; eauto|].
  rewrite baseSet_cons.
  destruct (node_get n key) as [[p|child|l]|]; simpl; eauto;
    match goal with |- context [baseSet ?w ?c ?p ?v] =>
      destruct (baseSet w c p v) end; simpl; eauto.
Qed.

Lemma baseSet_other_key w n key rest v k0 :
  key ≠ k0 →
  node_get (baseSet w n (key :: rest) v).2 k0 = node_get n k0.
Proof.
  intros Hne.
  destruct (baseSet_shape w n key rest v) as [->|[x ->]]; [done|].
  by rewrite node_get_assign_ne.
Qed.

Lemma baseSet_keeps_key w n path v k0 :
  is_Some (node_get n k0) → is_Some (node_get (baseSet w n path v).2 k0).
Proof.
  intros H. destruct path as [|key rest]; [done|].
  destruct (baseSet_shape w n key rest v) as [->|[x ->]]; [done|].
  rewrite node_get_assign. by case_decide.
Qed.

(** *** Reading back what [set] wrote *)

Lemma owned_walk_container next path :
  owned_walk (VNode (container next)) path.
Proof.
  destruct path as [|k [|k' rest]]; simpl; [done|done|].
  unfold container. by destruct (isIndex next).
Qed.

Lemma tree_get_container next k path :
  tree_get (VNode (container next)) (k :: path) = None.
Proof. simpl. unfold container. by destruct (isIndex next). Qed.

(** As long as the walk stays within owned objects, the value ends up at
    the path, whatever was there, and the store is not written. *)
Lemma tree_get_baseSet w n path v :
  path ≠ [] →
  owned_walk (VNode n) path →
  tree_get (VNode (baseSet w n path v).2) path = Some v
  ∧ (baseSet w n path v).1 = w.
Proof.
  revert n. induction path as [|k [|next rest] IH]; intros n Hne Hown;
    [done| |].
  - rewrite baseSet_last. simpl. by rewrite node_get_assign_eq.
  - rewrite baseSet_cons. cbn [owned_walk] in Hown.
    destruct (node_get n k) as [[p|child|l]|] eqn:Hk; [| |done|].
    + destruct (IH (container next)) as [Hget Hw];
        [done|apply owned_walk_container|].
      destruct (baseSet w (container next) (next :: rest) v) as [w' child'].
      simpl in *. by rewrite node_get_assign_eq.
    + destruct (IH child) as [Hget Hw]; [done|done|].
      destruct (baseSet w child (next :: rest) v) as [w' child'].
      simpl in *. by rewrite node_get_assign_eq.
    + destruct (IH (container next)) as [Hget Hw];
        [done|apply owned_walk_container|].
      destruct (baseSet w (container next) (next :: rest) v) as [w' child'].
      simpl in *. by rewrite node_get_assign_eq.
Qed.

(** What lies off the path is left as it was. *)
Lemma tree_get_baseSet_diverge w n p q v :
  diverge p q →
  tree_get (VNode (baseSet w n p v).2) q = tree_get (VNode n) q.
Proof.
  revert n q. induction p as [|k [|next rest] IH]; intros n [|k2 q] Hd;
    try done; simpl in Hd.
  - destruct (decide (k = k2)) as [->|Hne]; [by destruct q|].
    cbn [tree_get]. by rewrite baseSet_other_key.
  - destruct (decide (k = k2)) as [<-|Hne];
      [|cbn [tree_get]; by rewrite baseSet_other_key].
    destruct q as [|k3 q]; [done|].
    rewrite baseSet_cons.
    destruct (node_get n k) as [[pr|child|l]|] eqn:Hk.
    + specialize (IH (container next) (k3 :: q) Hd).
      destruct (baseSet w (container next) (next :: rest) v) as [w' child'].
      cbn [tree_get snd] in *. rewrite node_get_assign_eq, Hk.
      cbn [tree_get] in IH. rewrite IH. unfold container.
      by destruct (isIndex next).
    + specialize (IH child (k3 :: q) Hd).
      destruct (baseSet w child (next :: rest) v) as [w' child'].
      cbn [tree_get snd] in *. by rewrite node_get_assign_eq, Hk.
    + done.
    + specialize (IH (container next) (k3 :: q) Hd).
      destruct (baseSet w (container next) (next :: rest) v) as [w' child'].
      cbn [tree_get snd] in *. rewrite node_get_assign_eq, Hk.
      cbn [tree_get] in IH. rewrite IH. unfold container.
      by destruct (isIndex next).
Qed.

(** The walk from the payload goes through [product]. *)
Lemma baseSet_envelope w product k ks v :
  baseSet w (envelope product) ("product" :: k :: ks) v
  = ((baseSet w product (k :: ks) v).1,
     envelope (baseSet w product (k :: ks) v).2).
Proof.
  rewrite baseSet_cons.
  unfold envelope, node_get. simpl.
  by destruct (baseSet w product (k :: ks) v).
Qed.

Lemma destination_product section key :
  ∃ k ks, destination section key = "product" :: k :: ks.
Proof.
  destruct (decide (section = "extensionAttributes")) as [->|Hne].
  - rewrite destination_extension. eauto.
  - rewrite destination_other by done.
    destruct (key_path_cons key) as (k & ks & ->). eauto.
Qed.

Lemma set_envelope w product section key v :
  ∃ k ks,
    destination section key = "product" :: k :: ks
    ∧ set w (envelope product) (destinationPath section key) v
      = ((baseSet w product (k :: ks) v).1,
         envelope (baseSet w product (k :: ks) v).2).
Proof.
  destruct (destination_product section key) as (k & ks & Hd).
  exists k, ks. split; [done|].
  unfold set. fold (destination section key). rewrite Hd.
  apply baseSet_envelope.
Qed.

(** *** The payload keeps its envelope *)

Lemma push_envelope code v st product :
  magentoPayload st = envelope product →
  ∃ product', magentoPayload (push_custom_attribute code v st)
              = envelope product'.
Proof.
  intros Hp. unfold push_custom_attribute. rewrite Hp.
  unfold envelope at 1, node_get at 1. simpl.
  assert (∀ e, ∃ product', magentoPayload (reject e st) = envelope product')
    as Hrej.
  { intros e. exists product. unfold reject. by destruct (st_rejection st). }
  destruct (node_get product "custom_attributes") as [[?|attrs|l]|]; auto.
  - destruct (node_push attrs _); auto. simpl.
    unfold envelope. eauto.
  - destruct (st_world st !! l); auto.
    destruct (intern _ _). destruct (node_push _ _); auto.
    simpl. eauto.
Qed.

Lemma commit_envelope section key v st product :
  magentoPayload st = envelope product →
  ∃ product', magentoPayload (commit section key v st) = envelope product'.
Proof.
  intros Hp. unfold commit.
  destruct (absent v); [eauto|].
  case_decide; [by eapply push_envelope|].
  rewrite Hp.
  destruct (set_envelope (st_world st) product section key v)
    as (k & ks & _ & ->).
  simpl. eauto.
Qed.

Lemma perform_envelope st ev product :
  magentoPayload st = envelope product →
  ∃ product', magentoPayload (perform st ev) = envelope product'.
Proof.
  destruct ev as [section key v|e]; simpl.
  - apply commit_envelope.
  - intros Hp. exists product. unfold reject. by destruct (st_rejection st).
Qed.

Lemma fold_perform_envelope evs st product :
  magentoPayload st = envelope product →
  ∃ product', magentoPayload (fold_left perform evs st) = envelope product'.
Proof.
  revert st product. induction evs as [|ev evs IH]; intros st product Hp.
  - simpl. eauto.
  - simpl. destruct (perform_envelope st ev product Hp) as [product' Hp'].
    eauto.
Qed.

(** *** The key [custom_attributes] stays *)

Lemma commit_keeps section key v st product :
  magentoPayload st = envelope product →
  is_Some (node_get product "custom_attributes") →
  ∃ product',
    magentoPayload (commit section key v st) = envelope product'
    ∧ is_Some (node_get product' "custom_attributes").
Proof.
  intros Hp Hk. unfold commit.
  destruct (absent v); [eauto|].
  assert (∀ e, ∃ product',
             magentoPayload (reject e st) = envelope product'
             ∧ is_Some (node_get product' "custom_attributes")) as Hrej.
  { intros e. exists product. unfold reject. by destruct (st_rejection st). }
  case_decide.
  - unfold push_custom_attribute. rewrite Hp.
    unfold envelope at 1, node_get at 1. simpl.
    destruct (node_get product "custom_attributes") as [[?|attrs|l]|] eqn:Hca;
      auto.
    + destruct (node_push attrs _); auto. simpl.
      eexists. split; [reflexivity|]. by rewrite node_get_assign_eq.
    + destruct (st_world st !! l); auto.
      destruct (intern _ _). destruct (node_push _ _); auto.
      simpl. exists product. by rewrite Hca.
  - rewrite Hp.
    destruct (set_envelope (st_world st) product section key v)
      as (k & ks & _ & ->).
    simpl. eexists. split; [reflexivity|]. by apply baseSet_keeps_key.
Qed.

Lemma fold_perform_keeps evs st product :
  magentoPayload st = envelope product →
  is_Some (node_get product "custom_attributes") →
  ∃ product',
    magentoPayload (fold_left perform evs st) = envelope product'
    ∧ is_Some (node_get product' "custom_attributes").
Proof.
  revert st product. induction evs as [|ev evs IH]; intros st product Hp Hk.
  - simpl. eauto.
  - simpl. destruct ev as [section key v|e]; simpl.
    + destruct (commit_keeps section key v st product Hp Hk)
        as (product' & Hp' & Hk'). eauto.
    + apply (IH _ product); [|done].
      unfold reject. by destruct (st_rejection st).
Qed.

Lemma magentoPayload_erase st : magentoPayload (erase st) = magentoPayload st.
Proof. reflexivity. Qed.

Lemma run_envelope this w sourceObject :
  ∃ product, magentoPayload (run this w sourceObject) = envelope product.
Proof.
  rewrite <- magentoPayload_erase, run_events.
  by apply (fold_perform_envelope _ _ (Obj [("custom_attributes", VNode (Arr 0 []))])).
Qed.

Lemma run_keeps this w sourceObject :
  ∃ product,
    magentoPayload (run this w sourceObject) = envelope product
    ∧ is_Some (node_get product "custom_attributes").
Proof.
  rewrite <- magentoPayload_erase, run_events.
  by apply (fold_perform_keeps _ _
              (Obj [("custom_attributes", VNode (Arr 0 []))])).
Qed.

(** What a returned payload is. *)
Lemma returned_payload this w sourceObject p :
  r_outcome (transform this w sourceObject) = Returned p →
  p = magentoPayload (run this w sourceObject)
  ∧ st_rejection (run this w sourceObject) = None.
Proof.
  unfold transform. simpl.
  destruct (st_rejection _); [done|].
  destruct (falsy _); [done|]. by intros [= ->].
Qed.

End PayloadFacts.

(** ** The first rejection *)

Module RejectionFacts.
Import Js Lodash Mapper Spec JsFacts RunFacts.

Lemma rejection_reject e st :
  st_rejection (reject e st) = Some (default e (st_rejection st)).
Proof. unfold reject. by destruct (st_rejection st) eqn:H; simpl. Qed.

(** A commit either leaves the rejection as it is or, when there was none,
    raises the [TypeError] of a failed [push]. *)
Lemma rejection_push code v st :
  st_rejection (push_custom_attribute code v st) = st_rejection st
  ∨ (st_rejection st = None
     ∧ st_rejection (push_custom_attribute code v st) = Some push_error).
Proof.
  assert (st_rejection (reject push_error st) = st_rejection st
          ∨ (st_rejection st = None
             ∧ st_rejection (reject push_error st) = Some push_error)) as Hrej.
  { rewrite rejection_reject. destruct (st_rejection st); simpl; auto. }
  unfold push_custom_attribute.
  destruct (node_get (magentoPayload st) "product") as [[?|product|?]|]; auto.
  destruct (node_get product "custom_attributes") as [[?|attrs|l]|]; auto.
  - destruct (node_push attrs _); auto.
  - destruct (st_world st !! l); auto.
    destruct (intern _ _). destruct (node_push _ _); auto.
Qed.

Lemma rejection_commit section key v st :
  st_rejection (commit section key v st) = st_rejection st
  ∨ (st_rejection st = None
     ∧ st_rejection (commit section key v st) = Some push_error).
Proof.
  unfold commit. destruct (absent v); [auto|].
  case_decide; [apply rejection_push|].
  destruct (set _ _ _ _). auto.
Qed.

Lemma rejection_sticky st ev e :
  st_rejection st = Some e → st_rejection (perform st ev) = Some e.
Proof.
  intros H. destruct ev as [section key v|e']; simpl.
  - destruct (rejection_commit section key v st) as [->|[? _]]; congruence.
  - rewrite rejection_reject, H. done.
Qed.

Lemma rejection_sticky_fold evs st e :
  st_rejection st = Some e → st_rejection (fold_left perform evs st) = Some e.
Proof.
  revert st. induction evs as [|ev evs IH]; intros st H; simpl; [done|].
  by apply IH, rejection_sticky.
Qed.

(** A rejection event always leaves a rejection behind. *)
Lemma rejection_raised evs st e :
  EReject e ∈ evs → is_Some (st_rejection (fold_left perform evs st)).
Proof.
  revert st. induction evs as [|ev evs IH]; intros st Hin.
  - by apply elem_of_nil in Hin.
  - apply elem_of_cons in Hin as [<-|Hin]; simpl; [|by apply IH].
    erewrite rejection_sticky_fold; [done|apply rejection_reject].
Qed.

(** Where a rejection comes from. *)
Lemma rejection_origin evs st e :
  st_rejection (fold_left perform evs st) = Some e →
  st_rejection st = Some e ∨ e = push_error ∨ EReject e ∈ evs.
Proof.
  revert st. induction evs as [|ev evs IH]; intros st H; simpl in *; [auto|].
  destruct (IH _ H) as [Hst|[->|Hin]]; [|auto|right; right; by right].
  destruct ev as [section key v|e']; simpl in Hst.
  - destruct (rejection_commit section key v st) as [Heq|[_ Heq]];
      rewrite Heq in Hst; [auto|].
    right; left. congruence.
  - rewrite rejection_reject in Hst.
    destruct (st_rejection st) as [e0|]; simpl in Hst; [auto|].
    right; right. simplify_eq. by left.
Qed.

(** *** The queue *)

Lemma enqueue_perm p queue : enqueue p queue ≡ₚ p :: queue.
Proof.
  induction queue as [|q queue IH]; simpl; [done|].
  case_decide; [done|]. rewrite IH. apply Permutation_swap.
Qed.

Lemma schedule_perm queue : schedule queue ≡ₚ queue.
Proof.
  induction queue as [|p queue IH]; simpl; [done|].
  by rewrite enqueue_perm, IH.
Qed.

(** A failed resolution shows up as a rejection event, and conversely. *)
Lemma failure_event trace e :
  EReject e ∈ events trace
  ↔ ∃ t, t ∈ trace ∧ failure (t_resolved t) = Some e.
Proof.
  unfold events. rewrite elem_of_app, list_elem_of_omap, list_elem_of_fmap.
  split.
  - intros [(t & Ht & Hev)|(p & Hev & Hp)].
    + exists t. split; [done|].
      unfold sync_event in Hev.
      destruct (t_resolved t) as [?|? [?|? ?]]; simpl; congruence.
    + rewrite schedule_perm in Hp.
      apply list_elem_of_omap in Hp as (t & Ht & Hp).
      exists t. split; [done|].
      unfold pending_of in Hp. unfold async_event in Hev.
      destruct (t_resolved t) as [?|? [?|? [?|?]]]; simplify_eq; simpl in *;
        congruence.
  - intros (t & Ht & Hf).
    unfold failure in Hf.
    destruct (t_resolved t) as [?|? [e'|d [?|e']]] eqn:Hr; simplify_eq.
    + left. exists t. split; [done|]. unfold sync_event. by rewrite Hr.
    + right. eexists {| p_delay := d; p_settled := RejectedWith e |}.
      split; [reflexivity|].
      rewrite schedule_perm. apply list_elem_of_omap.
      exists t. split; [done|]. unfold pending_of. by rewrite Hr.
Qed.

Lemma st_rejection_erase st : st_rejection (erase st) = st_rejection st.
Proof. reflexivity. Qed.

End RejectionFacts.

(** ** The flat list of custom attributes *)

Module ListFacts.
Import Js Lodash Mapper Spec JsFacts RunFacts PayloadFacts RejectionFacts.

Lemma prop_set_fresh {A} (ps : list (string * A)) k a :
  prop_get ps k = None → prop_set ps k a = ps ++ [(k, a)].
Proof.
  induction ps as [|[k0 a0] ps IH]; simpl; [done|].
  case_decide; [done|]. intros Hget. by rewrite IH.
Qed.

Lemma prop_get_indexed_end (rs : list value) :
  prop_get (indexed rs) (pretty (length rs)) = None.
Proof.
  unfold indexed.
  assert (∀ n, prop_get (imap (λ i r, (pretty (n + i), r)) rs)
                 (pretty (n + length rs)) = None) as H.
  { induction rs as [|r rs IH]; intros n; simpl; [done|].
    rewrite decide_False.
    - rewrite (imap_ext _ (λ i r, (pretty (S n + i), r))).
      + replace (n + S (length rs)) with (S n + length rs) by lia. apply IH.
      + intros i x _. simpl. f_equal. f_equal. lia.
    - intros Heq. apply (inj pretty) in Heq. lia. }
  apply (H 0).
Qed.

Lemma indexed_snoc rs r :
  indexed (rs ++ [r]) = indexed rs ++ [(pretty (length rs), r)].
Proof.
  unfold indexed. rewrite imap_app. simpl. by rewrite Nat.add_0_r.
Qed.

(** [push] on an array that holds [rs] gives the array that holds
    [rs ++ [r]]. *)
Lemma push_js_array rs r :
  node_push (Arr (length rs) (indexed rs)) r
  = Some (Arr (length (rs ++ [r])) (indexed (rs ++ [r]))).
Proof.
  simpl. rewrite prop_set_fresh by apply prop_get_indexed_end.
  rewrite indexed_snoc, length_app. simpl. do 2 f_equal. lia.
Qed.

Lemma pushed_cons ev evs :
  pushed (ev :: evs) = option_list (pushed_by ev) ++ pushed evs.
Proof. unfold pushed. simpl. by destruct (pushed_by ev). Qed.

Lemma pushed_app evs1 evs2 : pushed (evs1 ++ evs2) = pushed evs1 ++ pushed evs2.
Proof. apply omap_app. Qed.

Lemma is_custom_true section :
  is_custom section = true ↔ section = "customAttributes".
Proof. unfold is_custom. by rewrite bool_decide_eq_true. Qed.

(** A commit that does not aim at [custom_attributes] leaves there the
    array of the records pushed so far, and raises no error. *)
Lemma commit_list section key v st product rs :
  magentoPayload st = envelope product →
  node_get product "custom_attributes" = Some (js_array rs) →
  on_custom_attributes section key = false →
  ∃ product',
    magentoPayload (commit section key v st) = envelope product'
    ∧ node_get product' "custom_attributes"
      = Some (js_array (rs ++ option_list (pushed_by (ECommit section key v))))
    ∧ st_rejection (commit section key v st) = st_rejection st.
Proof.
  intros Hp Hattrs Hkey. unfold commit, pushed_by, is_custom.
  destruct (absent v) eqn:Hv; simpl.
  { rewrite andb_false_r. simpl. rewrite app_nil_r. eauto. }
  rewrite andb_true_r.
  destruct (decide (section = "customAttributes")) as [->|Hne].
  - rewrite bool_decide_true by done. simpl.
    unfold push_custom_attribute. rewrite Hp.
    unfold envelope at 1, node_get at 1. simpl. rewrite Hattrs.
    unfold js_array at 1. rewrite push_js_array. simpl.
    eexists. split; [reflexivity|]. split; [|done].
    by rewrite node_get_assign_eq.
  - rewrite bool_decide_false by done. simpl. rewrite app_nil_r.
    rewrite Hp.
    destruct (set_envelope (st_world st) product section key v)
      as (k & ks & Hd & ->).
    simpl. eexists. split; [reflexivity|]. split; [|done].
    rewrite baseSet_other_key; [done|].
    intros ->. unfold on_custom_attributes, is_custom in Hkey.
    rewrite bool_decide_false in Hkey by done. simpl in Hkey.
    by rewrite Hd in Hkey.
Qed.

Lemma perform_list st ev product rs :
  magentoPayload st = envelope product →
  node_get product "custom_attributes" = Some (js_array rs) →
  overwrites_list ev = false →
  ∃ product',
    magentoPayload (perform st ev) = envelope product'
    ∧ node_get product' "custom_attributes"
      = Some (js_array (rs ++ option_list (pushed_by ev))).
Proof.
  intros Hp Hattrs Hev. destruct ev as [section key v|e]; simpl in *.
  - destruct (commit_list section key v st product rs) as (product' & ? & ? & _);
      eauto.
  - exists product. rewrite app_nil_r. split; [|done].
    unfold reject. by destruct (st_rejection st).
Qed.

Lemma fold_perform_list evs st product rs :
  magentoPayload st = envelope product →
  node_get product "custom_attributes" = Some (js_array rs) →
  Forall (λ ev, overwrites_list ev = false) evs →
  ∃ product',
    magentoPayload (fold_left perform evs st) = envelope product'
    ∧ node_get product' "custom_attributes" = Some (js_array (rs ++ pushed evs)).
Proof.
  revert st product rs. induction evs as [|ev evs IH];
    intros st product rs Hp Hattrs Hall.
  - simpl. exists product. by rewrite app_nil_r.
  - apply Forall_cons in Hall as [Hev Hall].
    destruct (perform_list st ev product rs) as (product' & Hp' & Hattrs'); auto.
    destruct (IH _ _ _ Hp' Hattrs' Hall) as (product'' & ? & ?).
    exists product''. split; [done|].
    by rewrite pushed_cons, app_assoc.
Qed.

(** As long as the list is in place no [push] fails: the rejection is
    that of the first rejection event. *)
Lemma fold_perform_first evs st product rs :
  magentoPayload st = envelope product →
  node_get product "custom_attributes" = Some (js_array rs) →
  Forall (λ ev, overwrites_list ev = false) evs →
  st_rejection (fold_left perform evs st)
  = match st_rejection st with
    | Some e => Some e
    | None => first_failure evs
    end.
Proof.
  revert st product rs. induction evs as [|ev evs IH];
    intros st product rs Hp Hattrs Hall.
  - simpl. by destruct (st_rejection st).
  - apply Forall_cons in Hall as [Hev Hall].
    destruct ev as [section key v|e]; simpl in *.
    + destruct (commit_list section key v st product rs Hp Hattrs Hev)
        as (product' & Hp' & Hattrs' & Hr).
      rewrite (IH _ _ _ Hp' Hattrs' Hall), Hr. done.
    + rewrite (IH (reject e st) product rs); [| |done|done].
      * rewrite rejection_reject. by destruct (st_rejection st).
      * unfold reject. by destruct (st_rejection st).
Qed.

(** *** Where events come from *)

Lemma tasks_elem this task :
  task ∈ tasks this ↔ task.1 ∈ sections ∧ task.2 ∈ entries this task.1.
Proof.
  unfold tasks. rewrite list_elem_of_bind. split.
  - intros (s & Hin & Hs). apply list_elem_of_fmap in Hin as (e & -> & He).
    done.
  - intros [Hs He]. exists task.1. split; [|done].
    apply list_elem_of_fmap. exists task.2. by destruct task.
Qed.

Lemma trace_origin this w sourceObject t :
  t ∈ st_trace (run this w sourceObject) →
  ∃ task, task ∈ tasks this ∧ resolves sourceObject task t.
Proof.
  intros Ht. pose proof (run_trace this w sourceObject) as Hall.
  apply list_elem_of_lookup in Ht as [i Hi].
  destruct (Forall2_lookup_r _ _ _ _ _ Hall Hi) as (task & Htask & Hres).
  exists task. split; [|done]. by eapply list_elem_of_lookup_2.
Qed.

Lemma event_origin trace section key v :
  ECommit section key v ∈ events trace →
  ∃ t, t ∈ trace ∧ t_section t = section ∧ t_key t = key.
Proof.
  unfold events. rewrite elem_of_app, list_elem_of_omap, list_elem_of_fmap.
  intros [(t & Ht & Hev)|(p & Hev & Hp)].
  - exists t. split; [done|]. unfold sync_event in Hev.
    destruct (t_resolved t) as [?|? [?|? ?]]; by simplify_eq.
  - rewrite schedule_perm in Hp.
    apply list_elem_of_omap in Hp as (t & Ht & Hp).
    exists t. split; [done|].
    unfold pending_of in Hp. unfold async_event in Hev.
    destruct (t_resolved t) as [?|? [?|? [?|?]]]; simplify_eq; simpl in *;
      by simplify_eq.
Qed.

Lemma list_untouched_task this task :
  list_untouched this = true → task ∈ tasks this →
  on_custom_attributes task.1 task.2.1 = false.
Proof.
  intros Hcfg [Hs He]%tasks_elem. unfold sections in Hs.
  destruct task as [s [k i]]. simpl in *.
  repeat (apply elem_of_cons in Hs as [->|Hs]).
  - unfold list_untouched in Hcfg. rewrite forallb_forall in Hcfg.
    apply negb_true_iff, (Hcfg (k, i)). by apply list_elem_of_In.
  - unfold on_custom_attributes. by rewrite destination_extension.
  - done.
  - by apply elem_of_nil in Hs.
Qed.

Lemma list_untouched_events this w sourceObject :
  list_untouched this = true →
  Forall (λ ev, overwrites_list ev = false)
    (events (st_trace (run this w sourceObject))).
Proof.
  intros Hcfg. apply Forall_forall. intros [section key v|e] Hev; [|done].
  apply event_origin in Hev as (t & Ht & <- & <-).
  apply trace_origin in Ht as (task & Htask & Hs & Hk & _).
  simpl. rewrite Hs, Hk. by apply (list_untouched_task this).
Qed.

(** The list in the payload that [Promise.all] leaves. *)
Lemma run_list this w sourceObject :
  list_untouched this = true →
  ∃ product,
    magentoPayload (run this w sourceObject) = envelope product
    ∧ node_get product "custom_attributes"
      = Some (js_array (pushed (events (st_trace (run this w sourceObject))))).
Proof.
  intros Hcfg. rewrite <- magentoPayload_erase, run_events.
  apply (fold_perform_list _ _
           (Obj [("custom_attributes", VNode (Arr 0 []))]) []);
    [done|done|].
  by apply list_untouched_events.
Qed.

Lemma run_first_failure this w sourceObject :
  list_untouched this = true →
  st_rejection (run this w sourceObject)
  = first_failure (events (st_trace (run this w sourceObject))).
Proof.
  intros Hcfg. rewrite <- st_rejection_erase, run_events.
  rewrite (fold_perform_first _ _
             (Obj [("custom_attributes", VNode (Arr 0 []))]) []); try done.
  by apply list_untouched_events.
Qed.

Lemma first_failure_elem evs e :
  first_failure evs = Some e → EReject e ∈ evs.
Proof.
  unfold first_failure. intros H%head_Some_elem_of.
  apply list_elem_of_omap in H as ([]&?&?); by simplify_eq/=.
Qed.

Lemma first_failure_none evs :
  (∀ e, EReject e ∉ evs) → first_failure evs = None.
Proof.
  intros Hno. destruct (first_failure evs) as [e|] eqn:He; [|done].
  by apply first_failure_elem, Hno in He.
Qed.

End ListFacts.

(** ** The order of continuations *)

Module ScheduleFacts.
Import Js Lodash Mapper Spec JsFacts RunFacts RejectionFacts.

Lemma Forall_filter_keep {A} (P Q : A → Prop) `{!∀ x, Decision (P x)} l :
  Forall Q l → Forall Q (filter P l).
Proof.
  rewrite !Forall_forall. intros Hall x [_ Hx]%list_elem_of_filter. auto.
Qed.

Lemma enqueue_first p queue :
  Forall (by_delay p) queue → enqueue p queue = p :: queue.
Proof.
  destruct queue as [|q queue]; simpl; [done|].
  intros [Hq _]%Forall_cons. by rewrite decide_True.
Qed.

Lemma enqueue_sorted p queue :
  StronglySorted by_delay queue → StronglySorted by_delay (enqueue p queue).
Proof.
  induction 1 as [|q queue Hs IH Hq]; simpl.
  - repeat constructor.
  - case_decide as Hle.
    + constructor; [by constructor|].
      constructor; [done|].
      eapply Forall_impl; [exact Hq|]. unfold by_delay in *. simpl. lia.
    + constructor; [done|].
      rewrite enqueue_perm. constructor; [|done]. unfold by_delay. lia.
Qed.

Lemma schedule_sorted queue : StronglySorted by_delay (schedule queue).
Proof.
  induction queue as [|p queue IH]; simpl; [constructor|].
  by apply enqueue_sorted.
Qed.

(** The schedule is stable: what it does to a part of the queue does not
    depend on the rest. *)
Lemma filter_enqueue (P : pending → Prop) `{!∀ p, Decision (P p)} p queue :
  StronglySorted by_delay queue →
  filter P (enqueue p queue)
  = if decide (P p) then enqueue p (filter P queue) else filter P queue.
Proof.
  induction 1 as [|q queue Hs IH Hq]; simpl.
  - rewrite filter_cons, filter_nil. by case_decide.
  - destruct (decide (p_delay p ≤ p_delay q)) as [Hle|Hgt].
    + rewrite filter_cons. case_decide; [|done].
      symmetry. apply enqueue_first.
      rewrite filter_cons. case_decide.
      * constructor; [done|]. apply Forall_filter_keep.
        eapply Forall_impl; [exact Hq|]. unfold by_delay in *. simpl. lia.
      * apply Forall_filter_keep.
        eapply Forall_impl; [exact Hq|]. unfold by_delay in *. simpl. lia.
    + rewrite !(filter_cons _ q), IH.
      destruct (decide (P q)); [|done].
      destruct (decide (P p)); [|done].
      simpl. by rewrite decide_False.
Qed.

Lemma filter_schedule (P : pending → Prop) `{!∀ p, Decision (P p)} queue :
  filter P (schedule queue) = schedule (filter P queue).
Proof.
  induction queue as [|p queue IH]; simpl; [done|].
  rewrite filter_enqueue by apply schedule_sorted.
  rewrite filter_cons, IH. by case_decide.
Qed.

(** A queue whose results settle in the order of their creation is run in
    that order. *)
Lemma schedule_sorted_id queue :
  StronglySorted by_delay queue → schedule queue = queue.
Proof.
  induction 1 as [|p queue Hs IH Hp]; simpl; [done|].
  rewrite IH. by apply enqueue_first.
Qed.

End ScheduleFacts.

(** ** The records of the flat list and the configuration *)

Module RecordFacts.
Import Js Lodash Mapper Spec JsFacts RunFacts PayloadFacts RejectionFacts
  ListFacts ScheduleFacts.

Lemma pushed_settle_perm trace :
  pushed (settle_events trace) ≡ₚ pushed (async_event <$> omap pending_of trace).
Proof.
  unfold settle_events, pushed. by rewrite schedule_perm.
Qed.

(** One entry of the trace, in the three readings of it. *)
Lemma trace_cons_events t trace :
  ∃ evs1 evs2 evs3,
    loop_events (t :: trace) = evs1 ++ loop_events trace
    ∧ async_event <$> omap pending_of (t :: trace)
      = evs2 ++ (async_event <$> omap pending_of trace)
    ∧ omap declared_event (t :: trace) = evs3 ++ omap declared_event trace
    ∧ pushed evs1 ++ pushed evs2 = pushed evs3
    ∧ (is_read t = true → evs2 = [] ∧ evs1 = evs3)
    ∧ (is_read t = false → pushed evs1 = [] ∧ pushed evs2 = pushed evs3)
    ∧ (¬ custom_entry t → pushed evs3 = []).
Proof.
  unfold loop_events, is_read, custom_entry.
  cbn [omap list_omap].
  unfold sync_event at 1, pending_of at 1, declared_event at 1.
  assert (∀ v, t_section t ≠ "customAttributes" →
               pushed [ECommit (t_section t) (t_key t) v] = []) as Hother.
  { intros v Hne. unfold pushed. simpl. unfold is_custom.
    by rewrite bool_decide_false. }
  destruct (t_resolved t) as [name v|arg [e|d [v|e]]].
  - exists [ECommit (t_section t) (t_key t) v], [],
      [ECommit (t_section t) (t_key t) v].
    split_and!; try done; auto. by rewrite app_nil_r.
  - exists [EReject e], [], []. split_and!; try done.
  - exists [], [ECommit (t_section t) (t_key t) v],
      [ECommit (t_section t) (t_key t) v].
    split_and!; try done; auto.
  - exists [], [EReject e], []. split_and!; try done.
Qed.

(** Every entry that resolves to a value gets its record, once. *)
Lemma pushed_declared_perm trace :
  pushed (loop_events trace) ++ pushed (async_event <$> omap pending_of trace)
  ≡ₚ declared_records trace.
Proof.
  unfold declared_records.
  induction trace as [|t trace IH]; [done|].
  destruct (trace_cons_events t trace)
    as (evs1 & evs2 & evs3 & -> & -> & -> & H123 & _).
  rewrite !pushed_app, <- H123, <- IH.
  rewrite <- !app_assoc. f_equiv.
  rewrite !app_assoc. f_equiv. apply Permutation_app_comm.
Qed.

Lemma pushed_events_perm trace :
  pushed (loop_events trace) ++ pushed (settle_events trace)
  ≡ₚ declared_records trace.
Proof. by rewrite pushed_settle_perm, pushed_declared_perm. Qed.

(** Only the flat section pushes. *)
Lemma pushed_custom queue :
  pushed (async_event <$> queue)
  = pushed (async_event <$> filter custom_pending queue).
Proof.
  induction queue as [|p queue IH]; [done|].
  rewrite filter_cons. rewrite fmap_cons, pushed_cons, IH.
  destruct (decide (custom_pending p)) as [Hp|Hp].
  - by rewrite fmap_cons, pushed_cons.
  - unfold custom_pending in *. unfold async_event at 1.
    destruct (p_settled p); simpl; [|done].
    unfold is_custom. by rewrite bool_decide_false.
Qed.

(** When the awaited results of the flat section settle in the order of
    their creation, their records come in that order. *)
Lemma pushed_settle_sorted trace :
  StronglySorted by_delay (filter custom_pending (omap pending_of trace)) →
  pushed (settle_events trace)
  = pushed (async_event <$> omap pending_of trace).
Proof.
  intros Hs. unfold settle_events.
  rewrite pushed_custom, filter_schedule, schedule_sorted_id by done.
  by rewrite <- pushed_custom.
Qed.

(** When no entry of the flat section is awaited, the loop pushes the
    records in declared order. *)
Lemma pushed_loop_declared trace :
  Forall (λ t, custom_entry t → is_read t = true) trace →
  pushed (loop_events trace) = declared_records trace
  ∧ pushed (async_event <$> omap pending_of trace) = [].
Proof.
  unfold declared_records.
  induction 1 as [|t trace Ht Hall [IH1 IH2]]; [done|].
  destruct (trace_cons_events t trace)
    as (evs1 & evs2 & evs3 & -> & -> & -> & H123 & Hread & Hcall & Hother).
  rewrite !pushed_app, IH1, IH2.
  destruct (is_read t) eqn:Hr.
  - destruct Hread as [-> ->]; done.
  - destruct Hcall as [-> ->]; [done|].
    rewrite Hother; [done|]. intros Hc. specialize (Ht Hc). congruence.
Qed.

(** When every entry of the flat section is awaited, the loop pushes
    nothing. *)
Lemma pushed_loop_none trace :
  Forall (λ t, custom_entry t → is_read t = false) trace →
  pushed (loop_events trace) = []
  ∧ pushed (async_event <$> omap pending_of trace) = declared_records trace.
Proof.
  unfold declared_records.
  induction 1 as [|t trace Ht Hall [IH1 IH2]]; [done|].
  destruct (trace_cons_events t trace)
    as (evs1 & evs2 & evs3 & -> & -> & -> & H123 & Hread & Hcall & Hother).
  rewrite !pushed_app, IH1, IH2.
  destruct (is_read t) eqn:Hr.
  - destruct Hread as [-> ->]; [done|]. simpl.
    rewrite Hother; [done|]. intros Hc. specialize (Ht Hc). congruence.
  - destruct Hcall as [-> ->]; done.
Qed.

(** *** The flat section in the trace *)

Lemma filter_tagged (s s' : string) (l : section_entries) :
  filter (λ task : string * (string * instruction), task.1 = s) (pair s' <$> l)
  = if decide (s' = s) then pair s' <$> l else [].
Proof.
  induction l as [|e l IH]; [simpl; by case_decide|].
  rewrite fmap_cons, filter_cons, IH. simpl. by repeat case_decide.
Qed.

Lemma custom_tasks this :
  filter custom_task (tasks this)
  = pair "customAttributes" <$> entries this "customAttributes".
Proof.
  unfold tasks, sections, custom_task. simpl.
  rewrite !filter_app, !filter_tagged. simpl. by rewrite app_nil_r.
Qed.

Lemma custom_trace this w sourceObject :
  Forall2 (resolves sourceObject)
    (pair "customAttributes" <$> entries this "customAttributes")
    (filter custom_entry (st_trace (run this w sourceObject))).
Proof.
  rewrite <- custom_tasks. apply Forall2_filter; [|apply run_trace].
  intros task t (Hs & _). unfold custom_task, custom_entry. by rewrite Hs.
Qed.

Lemma custom_trace_keys this w sourceObject :
  t_key <$> filter custom_entry (st_trace (run this w sourceObject))
  = (entries this "customAttributes").*1.
Proof.
  pose proof (custom_trace this w sourceObject) as H.
  revert H. generalize (filter custom_entry (st_trace (run this w sourceObject))).
  induction (entries this "customAttributes") as [|e l IH]; intros tr H.
  - by apply Forall2_nil_inv_l in H as ->.
  - apply Forall2_cons_inv_l in H as (t & tr' & (_ & Hk & _) & H & ->).
    simpl in *. by rewrite Hk, IH.
Qed.

Lemma custom_trace_reads this w sourceObject :
  Forall (λ e, is_field_ref e.2 = true) (entries this "customAttributes") →
  Forall (λ t, custom_entry t → is_read t = true)
    (st_trace (run this w sourceObject)).
Proof.
  intros Hall. apply Forall_forall. intros t Ht Hc.
  assert (t ∈ filter custom_entry (st_trace (run this w sourceObject))) as Hin.
  { by apply list_elem_of_filter. }
  apply list_elem_of_lookup in Hin as [i Hi].
  destruct (Forall2_lookup_r _ _ _ _ _ (custom_trace this w sourceObject) Hi)
    as (task & Htask & _ & _ & Hres).
  apply list_lookup_fmap_Some in Htask as (e & -> & He).
  rewrite Forall_forall in Hall.
  specialize (Hall e (list_elem_of_lookup_2 _ _ _ He)).
  simpl in Hres. unfold is_read.
  destruct (e.2); [|done]. by destruct Hres as [? ->].
Qed.

Lemma custom_trace_calls this w sourceObject :
  Forall (λ e, is_field_ref e.2 = false) (entries this "customAttributes") →
  Forall (λ t, custom_entry t → is_read t = false)
    (st_trace (run this w sourceObject)).
Proof.
  intros Hall. apply Forall_forall. intros t Ht Hc.
  assert (t ∈ filter custom_entry (st_trace (run this w sourceObject))) as Hin.
  { by apply list_elem_of_filter. }
  apply list_elem_of_lookup in Hin as [i Hi].
  destruct (Forall2_lookup_r _ _ _ _ _ (custom_trace this w sourceObject) Hi)
    as (task & Htask & _ & _ & Hres).
  apply list_lookup_fmap_Some in Htask as (e & -> & He).
  rewrite Forall_forall in Hall.
  specialize (Hall e (list_elem_of_lookup_2 _ _ _ He)).
  simpl in Hres. unfold is_read.
  destruct (e.2); [done|]. by destruct Hres as [? ->].
Qed.

Lemma omap_cons_list {A B} (f : A → option B) x l :
  omap f (x :: l) = option_list (f x) ++ omap f l.
Proof. simpl. by destruct (f x). Qed.

(** The records in declared order are those of the flat part of the
    trace, for the entries that resolved to a value to write. *)
Lemma declared_records_custom trace :
  Forall (λ t, custom_entry t → resolved_present t) trace →
  declared_records trace = record_of <$> filter custom_entry trace.
Proof.
  unfold declared_records.
  induction 1 as [|t trace Ht Hall IH]; [done|].
  rewrite omap_cons_list, pushed_app, IH, filter_cons.
  unfold declared_event, record_of, pushed.
  destruct (decide (custom_entry t)) as [Hc|Hc].
  - destruct (Ht Hc) as (v & Hv & Habs). rewrite !Hv. simpl.
    unfold is_custom. rewrite bool_decide_true by done. rewrite Habs.
    simpl. rewrite ?Hv. reflexivity.
  - destruct (resolved_value (t_resolved t)); simpl; [|done].
    unfold is_custom. by rewrite bool_decide_false.
Qed.

End RecordFacts.

(** ** Leaving out an entry that resolves to nothing *)

Module RemovalFacts.
Import Js Lodash Mapper Spec JsFacts RunFacts PayloadFacts RejectionFacts
  ListFacts ScheduleFacts RecordFacts.

(** One turn of the loop: resolve the entry in the current store, note
    it, perform its immediate event and queue its awaited result. *)
Lemma launch_task_eq sourceObject st queue task :
  launch_task sourceObject (st, queue) task
  = let t := resolve_task sourceObject (st_world st) task in
    (fold_left perform (option_list (sync_event t)) (record t st),
     queue ++ option_list (pending_of t)).
Proof.
  destruct task as [section [key [name|f]]];
    unfold launch_task, launch, resolve_task; simpl.
  - by rewrite app_nil_r.
  - unfold sync_event, pending_of. simpl.
    destruct (f (st_world st) sourceObject); simpl; [|done].
    by rewrite app_nil_r.
Qed.

Lemma erase_record t st : erase (record t st) = erase st.
Proof. reflexivity. Qed.

Lemma st_world_erase st : st_world (erase st) = st_world st.
Proof. reflexivity. Qed.

Lemma commit_absent section key v st :
  absent v = true → commit section key v st = st.
Proof. intros H. unfold commit. by rewrite H. Qed.

(** The tasks of the configuration without the key. *)
Lemma entries_remove_key section key this s :
  entries (remove_key section key this) s
  = if decide (section = s)
    then filter (λ entry : string * instruction, entry.1 ≠ key)
           (entries this s)
    else entries this s.
Proof.
  unfold entries, remove_key. simpl. rewrite lookup_alter.
  case_decide; [|done]. subst s. by destruct (mapping this !! section).
Qed.

Lemma filter_other_tagged section key (s : string) (l : section_entries) :
  filter (other_task section key) (pair s <$> l)
  = pair s <$> (if decide (section = s)
                then filter (λ entry : string * instruction, entry.1 ≠ key) l
                else l).
Proof.
  induction l as [|e l IH]; [by case_decide|].
  rewrite fmap_cons, filter_cons, IH. unfold other_task. simpl.
  destruct (decide (section = s)) as [->|Hne].
  - rewrite filter_cons. destruct (decide (e.1 = key)) as [He|He].
    + rewrite decide_False; [|by intros Hn; apply Hn].
      rewrite decide_False; [done|by intros Hn; apply Hn].
    + rewrite decide_True; [|by intros [_ ?]].
      rewrite decide_True; done.
  - rewrite decide_True; [done|by intros [? _]].
Qed.

Lemma tasks_remove_key section key this :
  tasks (remove_key section key this)
  = filter (other_task section key) (tasks this).
Proof.
  unfold tasks, sections. simpl.
  rewrite !filter_app, !filter_other_tagged, !entries_remove_key.
  by rewrite app_nil_r, filter_nil, app_nil_r.
Qed.

Lemma resolve_task_other section key sourceObject w task :
  other_entry section key (resolve_task sourceObject w task)
  ↔ other_task section key task.
Proof. reflexivity. Qed.

Lemma pending_of_other section key t p :
  pending_of t = Some p →
  other_pending section key p ↔ other_entry section key t.
Proof.
  unfold pending_of. destruct (t_resolved t) as [|? [|]]; try done.
  by intros [= <-].
Qed.

(** What an entry that resolved to nothing does in the loop: it is noted,
    and at most queues an idle continuation. *)
Lemma absent_task t st :
  resolved_absent t →
  erase (fold_left perform (option_list (sync_event t)) (record t st))
  = erase st
  ∧ Forall idle (option_list (pending_of t)).
Proof.
  intros (v & Hv & Habs). unfold sync_event, pending_of.
  destruct (t_resolved t) as [name v'|arg [e|d [v'|e]]]; simplify_eq/=.
  - split; [|constructor]. by rewrite commit_absent.
  - split; [done|]. repeat constructor. by exists v.
Qed.

Lemma erase_fold_record evs t st st' :
  erase st = erase st' →
  erase (fold_left perform evs (record t st))
  = erase (fold_left perform evs (record t st')).
Proof. intros H. by rewrite !erase_fold_perform, !erase_record, H. Qed.

(** The loop of the configuration without the key goes along with the
    loop of the full one. *)
Lemma launch_sim section key sourceObject ts :
  ∀ st queue st' queue',
    erase st = erase st' →
    (∀ t, t ∈ st_trace (fold_left (launch_task sourceObject) ts (st, queue)).1
          → ¬ other_entry section key t → resolved_absent t) →
    ∃ tr qs,
      st_trace (fold_left (launch_task sourceObject) ts (st, queue)).1
      = st_trace st ++ tr
      ∧ st_trace (fold_left (launch_task sourceObject)
                    (filter (other_task section key) ts) (st', queue')).1
        = st_trace st' ++ filter (other_entry section key) tr
      ∧ (fold_left (launch_task sourceObject) ts (st, queue)).2 = queue ++ qs
      ∧ (fold_left (launch_task sourceObject)
           (filter (other_task section key) ts) (st', queue')).2
        = queue' ++ filter (other_pending section key) qs
      ∧ Forall (λ p, ¬ other_pending section key p → idle p) qs
      ∧ erase (fold_left (launch_task sourceObject) ts (st, queue)).1
        = erase (fold_left (launch_task sourceObject)
                   (filter (other_task section key) ts) (st', queue')).1.
Proof.
  induction ts as [|task ts IH]; intros st queue st' queue' Hst Habs.
  { exists [], []. simpl. by rewrite !app_nil_r. }
  rewrite filter_cons. cbn [fold_left] in *.
  rewrite launch_task_eq in *. cbn zeta in *.
  set (t := resolve_task sourceObject (st_world st) task) in *.
  set (st1 := fold_left perform (option_list (sync_event t)) (record t st)) in *.
  assert (st_trace st1 = st_trace st ++ [t]) as Htr1.
  { unfold st1. by rewrite st_trace_fold_perform. }
  destruct (decide (other_task section key task)) as [Hk|Hk].
  - cbn [fold_left]. rewrite launch_task_eq. cbn zeta.
    assert (st_world st' = st_world st) as ->.
    { by rewrite <- (st_world_erase st'), <- Hst. }
    fold t.
    set (st1' := fold_left perform (option_list (sync_event t)) (record t st')).
    assert (st_trace st1' = st_trace st' ++ [t]) as Htr1'.
    { unfold st1'. by rewrite st_trace_fold_perform. }
    destruct (IH st1 (queue ++ option_list (pending_of t))
                st1' (queue' ++ option_list (pending_of t)))
      as (tr & qs & H1 & H2 & H3 & H4 & H5 & H6).
    { by apply erase_fold_record. }
    { exact Habs. }
    exists (t :: tr), (option_list (pending_of t) ++ qs).
    rewrite H1, H2, H3, H4, Htr1, Htr1', <- !app_assoc. simpl.
    rewrite filter_cons, decide_True by done.
    rewrite filter_app. split_and!; try done.
    + do 2 f_equal. destruct (pending_of t) as [p|] eqn:Hp; [|done].
      simpl. rewrite filter_cons, decide_True; [done|].
      by apply (pending_of_other section key t p).
    + apply Forall_app. split; [|done].
      destruct (pending_of t) as [p|] eqn:Hp; [|constructor].
      repeat constructor. intros Hno. exfalso. apply Hno.
      by apply (pending_of_other section key t p).
  - assert (resolved_absent t) as Ht.
    { apply Habs; [|done].
      destruct (launch_all_trace sourceObject ts
                  (st1, queue ++ option_list (pending_of t)))
        as (tr & -> & _).
      simpl. rewrite Htr1. set_solver. }
    destruct (absent_task t st Ht) as [He Hidle]. fold st1 in He.
    destruct (IH st1 (queue ++ option_list (pending_of t)) st' queue')
      as (tr & qs & H1 & H2 & H3 & H4 & H5 & H6).
    { by rewrite He. }
    { exact Habs. }
    exists (t :: tr), (option_list (pending_of t) ++ qs).
    rewrite H1, H2, H3, H4, Htr1, <- !app_assoc. simpl.
    rewrite filter_cons, decide_False by done.
    rewrite filter_app. split_and!; try done.
    + f_equal. destruct (pending_of t) as [p|] eqn:Hp; [|done].
      simpl. rewrite filter_cons, decide_False; [done|].
      by rewrite (pending_of_other section key t p).
    + apply Forall_app. split; [|done].
      eapply Forall_impl; [exact Hidle|]. auto.
Qed.

(** Idle continuations can be left out. *)
Lemma resume_sim section key queue :
  ∀ st st',
    Forall (λ p, ¬ other_pending section key p → idle p) queue →
    erase st = erase st' →
    erase (fold_left resume queue st)
    = erase (fold_left resume (filter (other_pending section key) queue) st').
Proof.
  induction queue as [|p queue IH]; intros st st' Hall Hst; [done|].
  apply Forall_cons in Hall as [Hp Hall].
  rewrite filter_cons. cbn [fold_left].
  destruct (decide (other_pending section key p)) as [Hk|Hk].
  - cbn [fold_left]. apply IH; [done|].
    by rewrite !resume_perform, !erase_perform, Hst.
  - apply IH; [done|].
    destruct (Hp Hk) as (v & Hv & Habs).
    unfold resume. rewrite Hv. by rewrite commit_absent.
Qed.

(** The run of the configuration without a key that resolves to nothing
    is the run of the full one, but for the trace. *)
Lemma run_remove_key section key this w sourceObject :
  (∀ t, t ∈ st_trace (run this w sourceObject) →
        t_section t = section → t_key t = key → resolved_absent t) →
  erase (run (remove_key section key this) w sourceObject)
  = erase (run this w sourceObject)
  ∧ st_trace (run (remove_key section key this) w sourceObject)
    = filter (other_entry section key) (st_trace (run this w sourceObject)).
Proof.
  intros Habs. rewrite !run_tasks, tasks_remove_key.
  destruct (launch_sim section key sourceObject (tasks this)
              (initial_state w) [] (initial_state w) [])
    as (tr & qs & H1 & H2 & H3 & H4 & H5 & H6).
  { done. }
  { intros t Ht Hno. apply Habs.
    - rewrite run_tasks.
      destruct (fold_left _ (tasks this) _) as [st queue].
      by rewrite fold_resume_perform, st_trace_fold_perform.
    - destruct (decide (t_section t = section)) as [?|Hs]; [done|].
      exfalso. apply Hno. by intros [? _].
    - destruct (decide (t_key t = key)) as [?|Hs]; [done|].
      exfalso. apply Hno. by intros [_ ?]. }
  destruct (fold_left _ (tasks this) _) as [st queue].
  destruct (fold_left _ (filter _ (tasks this)) _) as [st' queue'].
  simpl in *. subst queue queue'.
  rewrite !fold_resume_perform, !st_trace_fold_perform.
  rewrite <- !fold_resume_perform. split; [|by rewrite H2, H1].
  rewrite <- filter_schedule. symmetry. apply resume_sim; [|done].
  rewrite schedule_perm. done.
Qed.

(** *** Nothing is written for it *)

Lemma commit_event_origin trace section key v :
  ECommit section key v ∈ events trace →
  ∃ t, t ∈ trace ∧ t_section t = section ∧ t_key t = key
       ∧ resolved_value (t_resolved t) = Some v.
Proof.
  unfold events. rewrite elem_of_app, list_elem_of_omap, list_elem_of_fmap.
  intros [(t & Ht & Hev)|(p & Hev & Hp)].
  - exists t. split; [done|]. unfold sync_event in Hev.
    destruct (t_resolved t) as [?|? [?|? ?]]; by simplify_eq.
  - rewrite schedule_perm in Hp.
    apply list_elem_of_omap in Hp as (t & Ht & Hp).
    exists t. split; [done|].
    unfold pending_of in Hp. unfold async_event in Hev.
    destruct (t_resolved t) as [?|? [?|? [?|?]]]; simplify_eq; simpl in *;
      by simplify_eq.
Qed.

Lemma pushed_origin evs r :
  r ∈ pushed evs →
  ∃ key v, ECommit "customAttributes" key v ∈ evs
           ∧ absent v = false ∧ r = attribute key v.
Proof.
  unfold pushed. rewrite list_elem_of_omap. intros (ev & Hev & Hr).
  destruct ev as [section key v|e]; [|done]. simpl in Hr.
  destruct (is_custom section) eqn:Hc; [|done].
  destruct (absent v) eqn:Hv; [done|]. simplify_eq/=.
  apply is_custom_true in Hc as ->. eauto.
Qed.

Lemma diverge_sym p q : diverge p q → diverge q p.
Proof.
  revert q. induction p as [|k p IH]; intros [|k' q]; simpl; try done.
  destruct (decide (k = k')) as [->|Hne].
  - rewrite decide_True by done. apply IH.
  - by rewrite decide_False.
Qed.

Lemma push_leaves code v st k rest :
  k ≠ "custom_attributes" →
  tree_get (VNode (magentoPayload (push_custom_attribute code v st)))
    ("product" :: k :: rest)
  = tree_get (VNode (magentoPayload st)) ("product" :: k :: rest).
Proof.
  intros Hk. unfold push_custom_attribute.
  assert (∀ e, magentoPayload (reject e st) = magentoPayload st) as Hrej.
  { intros e. unfold reject. by destruct (st_rejection st). }
  destruct (node_get (magentoPayload st) "product") as [[?|product|?]|] eqn:Hp;
    rewrite ?Hrej; try done.
  destruct (node_get product "custom_attributes") as [[?|attrs|l]|] eqn:Hca;
    rewrite ?Hrej; try done.
  - destruct (node_push attrs _); rewrite ?Hrej; [|done].
    cbn [magentoPayload with_payload tree_get].
    rewrite node_get_assign_eq, Hp.
    by rewrite node_get_assign_ne by done.
  - destruct (st_world st !! l); rewrite ?Hrej; [|done].
    destruct (intern _ _). destruct (node_push _ _); by rewrite ?Hrej.
Qed.

Lemma perform_leaves st ev path :
  leaves path ev →
  tree_get (VNode (magentoPayload (perform st ev))) path
  = tree_get (VNode (magentoPayload st)) path.
Proof.
  destruct ev as [section key v|e]; simpl.
  - intros [Habs|Hoff]; [by rewrite commit_absent|].
    unfold commit. destruct (absent v); [done|].
    destruct (decide (section = "customAttributes")) as [->|Hne].
    + destruct Hoff as (k & rest & -> & Hk). by apply push_leaves.
    + unfold set. fold (destination section key).
      pose proof (tree_get_baseSet_diverge (st_world st) (magentoPayload st)
                    (destination section key) path v Hoff) as H.
      by destruct (baseSet _ _ _ _).
  - intros _. unfold reject. by destruct (st_rejection st).
Qed.

Lemma fold_perform_leaves evs st path :
  Forall (leaves path) evs →
  tree_get (VNode (magentoPayload (fold_left perform evs st))) path
  = tree_get (VNode (magentoPayload st)) path.
Proof.
  revert st. induction evs as [|ev evs IH]; intros st Hall; [done|].
  apply Forall_cons in Hall as [Hev Hall]. simpl.
  by rewrite IH, perform_leaves.
Qed.

End RemovalFacts.

(** ** When the store is left alone *)

Module StoreFacts.
Import Js Lodash Mapper Spec JsFacts RunFacts PayloadFacts RejectionFacts
  ListFacts ScheduleFacts RecordFacts RemovalFacts.

(** *** Paths *)

Lemma strictly_above_spec p q :
  strictly_above p q = true ↔ ∃ k r, q = p ++ k :: r.
Proof.
  revert q. induction p as [|k1 p IH]; intros [|k2 q]; simpl.
  - split; [done|]. by intros (k & r & ?).
  - split; [eauto|done].
  - split; [done|]. by intros (k & r & ?).
  - rewrite andb_true_iff, bool_decide_eq_true, IH. split.
    + intros [-> (k & r & ->)]. eauto.
    + intros (k & r & [= -> ->]). eauto.
Qed.

Lemma paths_compare p q :
  p `prefix_of` q ∨ strictly_above q p = true ∨ diverge p q.
Proof.
  revert q. induction p as [|k1 p IH]; intros q.
  - left. apply prefix_nil.
  - destruct q as [|k2 q]; [right; by left|].
    simpl. destruct (decide (k1 = k2)) as [->|Hne].
    + rewrite bool_decide_true by done. simpl.
      destruct (IH q) as [Hp|[Hs|Hd]]; auto.
      left. by apply prefix_cons.
    + right; right. done.
Qed.

Lemma strictly_above_prefix p q r :
  p `prefix_of` q → strictly_above q r = true → strictly_above p r = true.
Proof.
  intros [x ->]. rewrite !strictly_above_spec. intros (k & t & ->).
  destruct x as [|k' x].
  - rewrite app_nil_r. eauto.
  - exists k', (x ++ k :: t). by rewrite <- app_assoc.
Qed.

Lemma tree_get_app t p q :
  tree_get t (p ++ q) = tree_get t p ≫= λ x, tree_get x q.
Proof.
  revert t. induction p as [|k p IH]; intros t; simpl; [done|].
  destruct t as [|n|]; try done.
  destruct (node_get n k); [apply IH|done].
Qed.

(** A walk that meets no reference on its way stays within owned
    objects. *)
Lemma owned_walk_clear n path :
  (∀ q l, strictly_above q path = true →
          tree_get (VNode n) q ≠ Some (VRef l)) →
  owned_walk (VNode n) path.
Proof.
  revert n. induction path as [|k [|next rest] IH]; intros n Hno;
    [done|done|].
  cbn [owned_walk].
  destruct (node_get n k) as [[p|child|l]|] eqn:Hk; try done.
  - apply IH. intros q l Hq Hget.
    apply (Hno (k :: q) l).
    + simpl. by rewrite bool_decide_true.
    + simpl. by rewrite Hk.
  - apply (Hno [k] l).
    + simpl. by rewrite bool_decide_true.
    + simpl. by rewrite Hk.
Qed.

(** *** References in the payload *)

(** A write along a path that no reference guards leaves the store alone
    and brings references, if any, only at or below its own place. *)
Lemma baseSet_clear places w n path v :
  path ≠ [] →
  path ∈ places →
  (∀ p, p ∈ places → strictly_above p path = false) →
  clear_of places (VNode n) →
  (baseSet w n path v).1 = w
  ∧ clear_of places (VNode (baseSet w n path v).2).
Proof.
  intros Hne Hin Habove Hclear.
  assert (owned_walk (VNode n) path) as Hown.
  { apply owned_walk_clear. intros q l Hq Hget.
    destruct (Hclear q l Hget) as (p & Hp & Hpq).
    specialize (Habove p Hp).
    by rewrite (strictly_above_prefix p q path) in Habove. }
  destruct (tree_get_baseSet w n path v Hne Hown) as [Hget Hw].
  split; [done|].
  intros q l Hq.
  destruct (paths_compare path q) as [Hp|[Hs|Hd]].
  - eauto.
  - apply strictly_above_spec in Hs as (k & r & ->).
    rewrite tree_get_app, Hq in Hget. done.
  - rewrite (tree_get_baseSet_diverge w n path q v Hd) in Hq. eauto.
Qed.

Lemma initial_payload_clear places : clear_of places (VNode initial_payload).
Proof.
  intros q l Hq. exfalso.
  destruct q as [|k1 [|k2 [|k3 q]]]; simpl in Hq; try done;
    unfold node_get in Hq; simpl in Hq;
    repeat (case_decide; simpl in Hq; try done).
Qed.

(** Appending a record to the list brings references only below the
    list. *)
Lemma push_clear places product x :
  list_path ∈ places →
  clear_of places (VNode (envelope product)) →
  clear_of places
    (VNode (envelope (node_assign product "custom_attributes" x))).
Proof.
  intros Hin Hclear q l Hq.
  destruct q as [|k1 [|k2 q]]; [done| |].
  - simpl in Hq. unfold node_get in Hq. simpl in Hq. by case_decide.
  - destruct (decide (k1 = "product")) as [->|Hk1].
    + destruct (decide (k2 = "custom_attributes")) as [->|Hk2].
      * exists list_path. split; [done|]. by exists q.
      * apply (Hclear _ l). revert Hq. cbn [tree_get].
        unfold envelope, node_get at 1 3. simpl.
        by rewrite node_get_assign_ne.
    + simpl in Hq. unfold node_get in Hq. simpl in Hq.
      by rewrite decide_False in Hq.
Qed.

(** *** Events that leave the store alone *)

Lemma push_inline code v st product rs :
  magentoPayload st = envelope product →
  node_get product "custom_attributes" = Some (js_array rs) →
  push_custom_attribute code v st
  = with_payload (st_world st)
      (envelope (node_assign product "custom_attributes"
                   (js_array (rs ++ [attribute code v]))))
      st.
Proof.
  intros Hp Hl. unfold push_custom_attribute. rewrite Hp.
  unfold envelope at 1, node_get at 1. simpl. rewrite Hl.
  unfold js_array at 1. by rewrite push_js_array.
Qed.

Lemma reject_settled places w e st :
  settled_state places w st → settled_state places w (reject e st).
Proof. unfold reject. by destruct (st_rejection st). Qed.

Lemma perform_settled places w st ev :
  list_path ∈ places →
  settled_state places w st →
  admissible places ev →
  settled_state places w (perform st ev).
Proof.
  intros Hlist Hst Hev.
  destruct ev as [section key v|e]; [|by apply reject_settled].
  simpl. destruct (absent v) eqn:Hv; [by rewrite commit_absent|].
  destruct Hst as (Hw & product & rs & Hp & Hl & Hclear).
  destruct (decide (section = "customAttributes")) as [->|Hsec].
  - unfold commit. rewrite Hv, decide_True by done.
    rewrite (push_inline key v st product rs Hp Hl).
    split; [done|]. eexists _, (rs ++ [attribute key v]). simpl.
    split_and!; [done|by rewrite node_get_assign_eq|].
    apply push_clear; [done|]. by rewrite <- Hp.
  - destruct Hev as [?|(Hkey & Hin & Habove)]; [done|].
    destruct (commit_list section key v st product rs Hp Hl Hkey)
      as (product' & Hp' & Hl' & _).
    assert (destination section key ≠ []) as Hne.
    { by destruct (destination_product section key) as (k & ks & ->). }
    destruct (baseSet_clear places (st_world st) (magentoPayload st)
                (destination section key) v Hne Hin Habove Hclear)
      as [Hw' Hclear'].
    revert Hp' Hl'. unfold commit, pushed_by, is_custom.
    rewrite Hv, decide_False, bool_decide_false by done. simpl.
    unfold set. fold (destination section key).
    destruct (baseSet _ _ _ _) as [w' p']. simpl in *.
    intros Hp' Hl'. subst w'. split; [done|].
    exists product', (rs ++ []). by rewrite <- Hp'.
Qed.

Lemma fold_perform_settled places w evs st :
  list_path ∈ places →
  settled_state places w st →
  Forall (admissible places) evs →
  settled_state places w (fold_left perform evs st).
Proof.
  intros Hlist. revert st. induction evs as [|ev evs IH]; intros st Hst Hall;
    [done|].
  apply Forall_cons in Hall as [Hev Hall]. simpl.
  apply IH; [|done]. by apply perform_settled.
Qed.

(** *** Separated configurations *)

Lemma path_destination_elem this task :
  task ∈ tasks this → task.1 ≠ "customAttributes" →
  destination task.1 task.2.1 ∈ path_destinations this.
Proof.
  intros Hin Hs. unfold path_destinations. apply list_elem_of_omap.
  exists task. split; [done|]. unfold is_custom.
  by rewrite bool_decide_false.
Qed.

Lemma separated_events this w sourceObject :
  separated this = true →
  Forall (admissible (list_path :: path_destinations this))
    (events (st_trace (run this w sourceObject))).
Proof.
  unfold separated. rewrite andb_true_iff. intros [Hlist Hsep].
  apply Forall_forall. intros [section key v|e] Hev; [|done].
  apply event_origin in Hev as (t & Ht & <- & <-).
  apply trace_origin in Ht as (task & Htask & Hs & Hk & _).
  rewrite Hs, Hk. simpl.
  destruct (decide (task.1 = "customAttributes")) as [?|Hsec]; [by left|].
  right.
  pose proof (list_untouched_task this task Hlist Htask) as Hkey.
  pose proof (path_destination_elem this task Htask Hsec) as Hin.
  split_and!; [done|by apply list_elem_of_further|].
  intros p [->|Hp]%elem_of_cons.
  - destruct (destination_product task.1 task.2.1) as (k & ks & Hd).
    unfold on_custom_attributes, is_custom in Hkey.
    rewrite bool_decide_false in Hkey by done. simpl in Hkey.
    rewrite Hd in *. simpl in *.
    apply bool_decide_eq_false in Hkey.
    rewrite (bool_decide_false ("custom_attributes" = k)) by congruence.
    done.
  - rewrite forallb_forall in Hsep.
    specialize (Hsep p). rewrite <- list_elem_of_In in Hsep.
    specialize (Hsep Hp). rewrite forallb_forall in Hsep.
    specialize (Hsep (destination task.1 task.2.1)).
    rewrite <- list_elem_of_In in Hsep.
    by apply negb_true_iff, Hsep.
Qed.

(** A call on a separated configuration does not write to the store. *)
Lemma run_world_separated this w sourceObject :
  separated this = true → st_world (run this w sourceObject) = w.
Proof.
  intros Hsep. rewrite <- st_world_erase, run_events.
  eapply (fold_perform_settled (list_path :: path_destinations this) w).
  - apply list_elem_of_here.
  - split; [done|].
    exists (Obj [("custom_attributes", VNode (Arr 0 []))]), [].
    split_and!; [done..|]. apply initial_payload_clear.
  - by apply separated_events.
Qed.

End StoreFacts.

(** ** Keys of [product] *)

Module MoreFacts.
Import Js Lodash Mapper Spec More JsFacts RunFacts PayloadFacts
  RejectionFacts ListFacts ScheduleFacts RecordFacts RemovalFacts StoreFacts.

(** A commit that does not aim at the key [K] of [product] does not
    create it. *)
Lemma commit_lacks K section key v st product :
  K ≠ "custom_attributes" →
  magentoPayload st = envelope product →
  node_get product K = None →
  section = "customAttributes" ∨ destination section key !! 1 ≠ Some K →
  ∃ product',
    magentoPayload (commit section key v st) = envelope product'
    ∧ node_get product' K = None.
Proof.
  intros HK Hp Hk Hev. unfold commit.
  destruct (absent v); [eauto|].
  assert (∀ e, ∃ product',
             magentoPayload (reject e st) = envelope product'
             ∧ node_get product' K = None) as Hrej.
  { intros e. exists product. unfold reject. by destruct (st_rejection st). }
  destruct (decide (section = "customAttributes")) as [->|Hsec].
  - unfold push_custom_attribute. rewrite Hp.
    unfold envelope at 1, node_get at 1. simpl.
    destruct (node_get product "custom_attributes") as [[?|attrs|l]|] eqn:Hca;
      auto.
    + destruct (node_push attrs _); auto. simpl.
      eexists. split; [reflexivity|]. by rewrite node_get_assign_ne.
    + destruct (st_world st !! l); auto.
      destruct (intern _ _). destruct (node_push _ _); auto.
      simpl. eauto.
  - destruct Hev as [?|Hd]; [done|]. rewrite Hp.
    destruct (set_envelope (st_world st) product section key v)
      as (k & ks & Hdest & ->).
    simpl. eexists. split; [reflexivity|].
    rewrite baseSet_other_key; [done|].
    intros ->. by rewrite Hdest in Hd.
Qed.

Lemma fold_perform_lacks K evs st product :
  K ≠ "custom_attributes" →
  magentoPayload st = envelope product →
  node_get product K = None →
  Forall (λ ev, ∀ section key v, ev = ECommit section key v →
                section = "customAttributes"
                ∨ destination section key !! 1 ≠ Some K) evs →
  ∃ product',
    magentoPayload (fold_left perform evs st) = envelope product'
    ∧ node_get product' K = None.
Proof.
  intros HK. revert st product.
  induction evs as [|ev evs IH]; intros st product Hp Hk Hall; [eauto|].
  apply Forall_cons in Hall as [Hev Hall]. simpl.
  destruct ev as [section key v|e]; simpl.
  - destruct (commit_lacks K section key v st product) as (product' & ? & ?);
      eauto.
  - apply (IH _ product); [|done..].
    unfold reject. by destruct (st_rejection st).
Qed.

Lemma supplies_sku_task this task :
  supplies_sku this = false → task ∈ tasks this →
  task.1 = "customAttributes"
  ∨ destination task.1 task.2.1 !! 1 ≠ Some "sku".
Proof.
  intros Hno [Hs He]%tasks_elem. unfold sections in Hs.
  destruct task as [s [k i]]. simpl in *.
  repeat (apply elem_of_cons in Hs as [->|Hs]).
  - right. rewrite destination_other by done. simpl.
    unfold supplies_sku in Hno.
    apply not_true_iff_false in Hno. intros Hk. apply Hno.
    apply existsb_exists. exists (k, i). split; [by apply list_elem_of_In|].
    apply bool_decide_eq_true. simpl.
    destruct (key_path k) as [|k1 ks]; [done|]. simpl in *. done.
  - right. by rewrite destination_extension.
  - by left.
  - by apply elem_of_nil in Hs.
Qed.

(** Without a key of [core] at [sku], the payload never has one. *)
Lemma run_lacks_sku this w sourceObject :
  supplies_sku this = false →
  sku (run this w sourceObject) = undefined.
Proof.
  intros Hno.
  destruct (fold_perform_lacks "sku"
              (events (st_trace (run this w sourceObject)))
              (erase (initial_state w))
              (Obj [("custom_attributes", VNode (Arr 0 []))]))
    as (product & Hp & Hk); [done..| |].
  { apply Forall_forall. intros ev Hev section key v ->.
    apply event_origin in Hev as (t & Ht & <- & <-).
    apply trace_origin in Ht as (task & Htask & Hs & Hk & _).
    rewrite Hs, Hk. by apply (supplies_sku_task this). }
  rewrite <- run_events, magentoPayload_erase in Hp.
  unfold sku. rewrite Hp.
  change (get_prop (st_world (run this w sourceObject))
            (VNode (envelope product)) "product") with (VNode product).
  unfold get_prop. by rewrite Hk.
Qed.

(** *** Writing twice *)

Lemma prop_set_set {A} (ps : list (string * A)) k a b :
  prop_set (prop_set ps k a) k b = prop_set ps k b.
Proof.
  induction ps as [|[k0 a0] ps IH]; simpl.
  - by rewrite decide_True.
  - destruct (decide (k0 = k)) as [->|Hne]; simpl.
    + by rewrite decide_True.
    + by rewrite decide_False, IH.
Qed.

Lemma node_assign_assign {A} (n : node A) k a b :
  node_assign (node_assign n k a) k b = node_assign n k b.
Proof.
  destruct n as [ps|len ps]; simpl; rewrite prop_set_set; [done|].
  f_equal. destruct (array_index k); lia.
Qed.

Lemma owned_walk_cons n k next rest :
  owned_walk (VNode n) (k :: next :: rest)
  = match node_get n k with
    | Some (VRef _) => False
    | Some c => owned_walk c (next :: rest)
    | None => True
    end.
Proof. reflexivity. Qed.

(** A second write along the same path takes the place of the first. *)
Lemma baseSet_baseSet w n path v1 v2 :
  owned_walk (VNode n) path →
  (baseSet w n path v1).1 = w
  ∧ baseSet w (baseSet w n path v1).2 path v2 = baseSet w n path v2.
Proof.
  revert n. induction path as [|k [|next rest] IH]; intros n Hown.
  - done.
  - rewrite !baseSet_last. simpl. by rewrite node_assign_assign.
  - rewrite owned_walk_cons in Hown.
    rewrite (baseSet_cons w n k next rest v1), (baseSet_cons w n k next rest v2).
    destruct (node_get n k) as [[p|child|l]|] eqn:Hk; [| |done|].
    + destruct (IH (container next)) as [Hw Hset];
        [apply owned_walk_container|].
      destruct (baseSet w (container next) (next :: rest) v1) as [w1 c1].
      simpl in *. subst w1. split; [done|].
      rewrite baseSet_cons, node_get_assign_eq, Hset.
      destruct (baseSet w (container next) (next :: rest) v2) as [w2 c2].
      by rewrite node_assign_assign.
    + destruct (IH child) as [Hw Hset]; [done|].
      destruct (baseSet w child (next :: rest) v1) as [w1 c1].
      simpl in *. subst w1. split; [done|].
      rewrite baseSet_cons, node_get_assign_eq, Hset.
      destruct (baseSet w child (next :: rest) v2) as [w2 c2].
      by rewrite node_assign_assign.
    + destruct (IH (container next)) as [Hw Hset];
        [apply owned_walk_container|].
      destruct (baseSet w (container next) (next :: rest) v1) as [w1 c1].
      simpl in *. subst w1. split; [done|].
      rewrite baseSet_cons, node_get_assign_eq, Hset.
      destruct (baseSet w (container next) (next :: rest) v2) as [w2 c2].
      by rewrite node_assign_assign.
Qed.

(** *** Rejections and writes *)

Lemma same_data_reject e st : same_data (reject e st) st.
Proof. unfold reject, same_data. by destruct (st_rejection st). Qed.

Lemma same_data_trans st1 st2 st3 :
  same_data st1 st2 → same_data st2 st3 → same_data st1 st3.
Proof. intros [? ?] [? ?]. split; congruence. Qed.

Lemma same_data_sym st1 st2 : same_data st1 st2 → same_data st2 st1.
Proof. intros [? ?]. by split. Qed.

Lemma same_data_push code v st st' :
  same_data st st' →
  same_data (push_custom_attribute code v st)
    (push_custom_attribute code v st').
Proof.
  intros [Hw Hp].
  assert (∀ e, same_data (reject e st) (reject e st')) as Hrej.
  { intros e. eapply same_data_trans; [apply same_data_reject|].
    eapply same_data_trans; [by split|].
    apply same_data_sym, same_data_reject. }
  unfold push_custom_attribute. rewrite <- Hp, <- Hw.
  destruct (node_get (magentoPayload st) "product") as [[?|product|?]|]; auto.
  destruct (node_get product "custom_attributes") as [[?|attrs|l]|]; auto.
  - destruct (node_push attrs _); auto. by split.
  - destruct (st_world st !! l); auto.
    destruct (intern _ _). destruct (node_push _ _); auto. by split.
Qed.

Lemma same_data_commit section key v st st' :
  same_data st st' →
  same_data (commit section key v st) (commit section key v st').
Proof.
  intros Hd. unfold commit. destruct (absent v); [done|].
  case_decide; [by apply same_data_push|].
  destruct Hd as [Hw Hp]. rewrite <- Hw, <- Hp.
  by destruct (set _ _ _ _).
Qed.

Lemma same_data_fold evs st st' :
  same_data st st' →
  same_data (fold_left perform evs st)
    (fold_left perform (filter is_commit evs) st').
Proof.
  revert st st'. induction evs as [|ev evs IH]; intros st st' Hd; [done|].
  rewrite filter_cons. destruct ev as [section key v|e]; simpl.
  - apply IH. by apply same_data_commit.
  - apply IH. eapply same_data_trans; [apply same_data_reject|done].
Qed.

(** *** The store only grows *)

Lemma keeps_refl o : keeps o o.
Proof. split; [by destruct o|done]. Qed.

Lemma keeps_trans o1 o2 o3 : keeps o1 o2 → keeps o2 o3 → keeps o1 o3.
Proof.
  intros [Hk1 H1] [Hk2 H2]. split; [|auto].
  destruct o1, o2, o3; try done. lia.
Qed.

Lemma keeps_assign (o : node wvalue) k x : keeps o (node_assign o k x).
Proof.
  split.
  - destruct o as [ps|len ps]; simpl; [done|]. destruct (array_index k); lia.
  - intros k' Hk'. rewrite node_get_assign. by case_decide.
Qed.

Lemma keeps_push (o o' : node wvalue) x : node_push o x = Some o' → keeps o o'.
Proof.
  destruct o as [ps|len ps]; simpl; [done|]. intros [= <-]. split; [lia|].
  intros k Hk. unfold node_get in *. simpl.
  rewrite prop_get_set. by case_decide.
Qed.

Lemma extends_refl w : extends w w.
Proof. intros l o Hl. exists o. split; [done|apply keeps_refl]. Qed.

Lemma extends_trans w1 w2 w3 : extends w1 w2 → extends w2 w3 → extends w1 w3.
Proof.
  intros H12 H23 l o Hl.
  destruct (H12 l o Hl) as (o2 & Hl2 & Hk2).
  destruct (H23 l o2 Hl2) as (o3 & Hl3 & Hk3).
  exists o3. split; [done|]. by eapply keeps_trans.
Qed.

Lemma extends_app w ext : extends w (w ++ ext).
Proof.
  intros l o Hl. exists o. split; [|apply keeps_refl].
  by apply lookup_app_l_Some.
Qed.

Lemma extends_insert w l o o' :
  w !! l = Some o → keeps o o' → extends w (<[l := o']> w).
Proof.
  intros Hl Hk l' o0 Hl'. destruct (decide (l = l')) as [<-|Hne].
  - exists o'. split; [|congruence].
    apply list_lookup_insert_eq. by eapply lookup_lt_Some.
  - exists o0. split; [|apply keeps_refl].
    etrans; [by apply list_lookup_insert_ne|done].
Qed.

Lemma intern_node n w :
  intern (VNode n) w
  = let '(w1, n') :=
      match n with
      | Obj ps => let '(w1, ps') := intern_props ps w in (w1, Obj ps')
      | Arr len ps => let '(w1, ps') := intern_props ps w in (w1, Arr len ps')
      end in
    (w1 ++ [n'], WRef (length w1)).
Proof. reflexivity. Qed.

(** [intern] only allocates. *)
Lemma intern_app : ∀ v w, ∃ ext, (intern v w).1 = w ++ ext.
Proof.
  fix IH 1. intros [p|n|l] w.
  - exists []. simpl. by rewrite app_nil_r.
  - assert (∀ ps w, ∃ ext, (intern_props ps w).1 = w ++ ext) as Hprops.
    { clear w. induction ps as [|[k x] ps IHps]; intros w.
      - exists []. simpl. by rewrite app_nil_r.
      - simpl. destruct (IH x w) as [ext1 H1].
        destruct (intern x w) as [w1 x']. simpl in H1. subst w1.
        destruct (IHps (w ++ ext1)) as [ext2 H2].
        destruct (intern_props ps (w ++ ext1)) as [w2 r]. simpl in *.
        subst w2. exists (ext1 ++ ext2). by rewrite app_assoc. }
    rewrite intern_node.
    destruct n as [ps|len ps]; destruct (Hprops ps w) as [ext H];
      destruct (intern_props ps w) as [w1 ps']; simpl in *; subst w1;
      eexists; by rewrite <- app_assoc.
  - exists []. simpl. by rewrite app_nil_r.
Qed.

Lemma intern_extends v w : extends w (intern v w).1.
Proof. destruct (intern_app v w) as [ext ->]. apply extends_app. Qed.

Lemma intern_lookup v w l o : w !! l = Some o → (intern v w).1 !! l = Some o.
Proof.
  intros Hl. destruct (intern_app v w) as [ext ->].
  by apply lookup_app_l_Some.
Qed.

Lemma baseSet_world_extends path :
  ∀ w l v, extends w (baseSet_world w l path v).
Proof.
  induction path as [|key [|next rest] IH]; intros w l v.
  - apply extends_refl.
  - unfold baseSet_world.
    destruct (w !! l) as [o|] eqn:Hl; [|apply extends_refl].
    pose proof (intern_extends v w) as Hext.
    pose proof (intern_lookup v w l o Hl) as Hl'.
    destruct (intern v w) as [w1 x]. simpl in *.
    eapply extends_trans; [exact Hext|].
    eapply extends_insert; [exact Hl'|apply keeps_assign].
  - change (baseSet_world w l (key :: next :: rest) v)
      with (match w !! l with
            | None => w
            | Some o =>
                match node_get o key with
                | Some (WRef l') => baseSet_world w l' (next :: rest) v
                | _ =>
                    baseSet_world
                      (<[l := node_assign o key (WRef (length w))]> w
                       ++ [container next]) (length w) (next :: rest) v
                end
            end).
    destruct (w !! l) as [o|] eqn:Hl; [|apply extends_refl].
    assert (extends w
              (baseSet_world
                 (<[l := node_assign o key (WRef (length w))]> w
                  ++ [container next]) (length w) (next :: rest) v)) as Hnew.
    { eapply extends_trans; [|apply IH].
      eapply extends_trans; [|apply extends_app].
      eapply extends_insert; [exact Hl|apply keeps_assign]. }
    destruct (node_get o key) as [[p|l']|]; [done|apply IH|done].
Qed.

Lemma baseSet_extends path :
  ∀ w n v, extends w (baseSet w n path v).1.
Proof.
  induction path as [|key [|next rest] IH]; intros w n v.
  - apply extends_refl.
  - rewrite baseSet_last. apply extends_refl.
  - rewrite baseSet_cons.
    destruct (node_get n key) as [[p|child|l]|].
    + specialize (IH w (container next) v).
      by destruct (baseSet w (container next) (next :: rest) v).
    + specialize (IH w child v).
      by destruct (baseSet w child (next :: rest) v).
    + apply baseSet_world_extends.
    + specialize (IH w (container next) v).
      by destruct (baseSet w (container next) (next :: rest) v).
Qed.

Lemma reject_world e st : st_world (reject e st) = st_world st.
Proof. unfold reject. by destruct (st_rejection st). Qed.

Lemma push_extends code v st :
  extends (st_world st) (st_world (push_custom_attribute code v st)).
Proof.
  unfold push_custom_attribute.
  destruct (node_get (magentoPayload st) "product") as [[?|product|?]|];
    rewrite ?reject_world; try apply extends_refl.
  destruct (node_get product "custom_attributes") as [[?|attrs|l]|];
    rewrite ?reject_world; try apply extends_refl.
  - destruct (node_push attrs _); rewrite ?reject_world; apply extends_refl.
  - destruct (st_world st !! l) as [o|] eqn:Hl;
      rewrite ?reject_world; try apply extends_refl.
    pose proof (intern_extends (attribute code v) (st_world st)) as Hext.
    pose proof (intern_lookup (attribute code v) (st_world st) l o Hl) as Hl'.
    destruct (intern _ _) as [w1 x]. simpl in *.
    destruct (node_push o x) as [o'|] eqn:Hpush;
      rewrite ?reject_world; try apply extends_refl.
    simpl. eapply extends_trans; [exact Hext|].
    eapply extends_insert; [exact Hl'|by eapply keeps_push].
Qed.

Lemma perform_extends st ev :
  extends (st_world st) (st_world (perform st ev)).
Proof.
  destruct ev as [section key v|e]; simpl.
  - unfold commit. destruct (absent v); [apply extends_refl|].
    case_decide; [apply push_extends|].
    pose proof (baseSet_extends
                  (stringToPath (destinationPath section key))
                  (st_world st) (magentoPayload st) v) as Hext.
    unfold set. by destruct (baseSet _ _ _ _).
  - rewrite reject_world. apply extends_refl.
Qed.

Lemma fold_perform_extends evs st :
  extends (st_world st) (st_world (fold_left perform evs st)).
Proof.
  revert st. induction evs as [|ev evs IH]; intros st; [apply extends_refl|].
  simpl. eapply extends_trans; [apply perform_extends|apply IH].
Qed.

(** *** The store an entry is resolved in *)

Lemma launch_prefix sourceObject w ts :
  ∃ tr,
    st_trace (fold_left (launch_task sourceObject) ts (initial_state w, [])).1
    = tr
    ∧ Forall2 (resolves sourceObject) ts tr
    ∧ st_world
        (fold_left (launch_task sourceObject) ts (initial_state w, [])).1
      = st_world (fold_left perform (loop_events tr) (initial_state w)).
Proof.
  destruct (launch_all_trace sourceObject ts (initial_state w, []))
    as (tr & Htr & Hall).
  simpl in Htr. exists tr. split_and!; [done..|].
  destruct (launched_all w sourceObject ts (initial_state w, [])) as [He _];
    [by split|].
  rewrite Htr in He. unfold loop_events.
  rewrite <- (st_world_erase (fold_left perform _ _)), erase_fold_perform.
  rewrite <- He. done.
Qed.

(** *** Values without references *)

Lemma ref_free_no_ref v q l : ref_free v → tree_get v q ≠ Some (VRef l).
Proof.
  intros Hv Hq. destruct (Hv q l Hq) as (p & Hp & _).
  by apply elem_of_nil in Hp.
Qed.

Lemma ref_free_intro v :
  (∀ q l, tree_get v q ≠ Some (VRef l)) → ref_free v.
Proof. intros H q l Hq. by destruct (H q l). Qed.

Lemma ref_free_prim p : ref_free (VPrim p).
Proof. apply ref_free_intro. by intros [|k q] l. Qed.

Lemma ref_free_child n k c :
  ref_free (VNode n) → node_get n k = Some c → ref_free c.
Proof.
  intros Hn Hk. apply ref_free_intro. intros q l Hq.
  apply (ref_free_no_ref (VNode n) (k :: q) l Hn). simpl. by rewrite Hk.
Qed.

(** Replacing one key of an object by a value without references. *)
Lemma ref_free_update n n' k x :
  (∀ k', node_get n' k' = if decide (k = k') then Some x else node_get n k') →
  ref_free (VNode n) → ref_free x → ref_free (VNode n').
Proof.
  intros Hget Hn Hx. apply ref_free_intro. intros [|k' q] l; [done|].
  simpl. rewrite Hget. case_decide.
  - by apply ref_free_no_ref.
  - destruct (node_get n k') as [c|] eqn:Hk; [|done].
    apply ref_free_no_ref. by eapply ref_free_child.
Qed.

Lemma ref_free_assign n k x :
  ref_free (VNode n) → ref_free x → ref_free (VNode (node_assign n k x)).
Proof.
  apply (ref_free_update n _ k x). intros k'. apply node_get_assign.
Qed.

Lemma ref_free_push n n' x :
  node_push n x = Some n' →
  ref_free (VNode n) → ref_free x → ref_free (VNode n').
Proof.
  destruct n as [ps|len ps]; simpl; [done|]. intros [= <-].
  apply (ref_free_update _ _ (pretty len)). intros k'.
  unfold node_get. simpl. apply prop_get_set.
Qed.

Lemma ref_free_attribute code v : ref_free v → ref_free (attribute code v).
Proof.
  intros Hv. apply ref_free_intro. intros [|k q] l; [done|].
  unfold attribute. cbn [tree_get]. unfold node_get. simpl.
  case_decide; [by destruct q|].
  case_decide; [by apply ref_free_no_ref|done].
Qed.

(** A write of a value without references into a payload without
    references leaves the store alone. *)
Lemma baseSet_ref_free w n path v :
  path ≠ [] →
  ref_free (VNode n) → ref_free v →
  (baseSet w n path v).1 = w ∧ ref_free (VNode (baseSet w n path v).2).
Proof.
  intros Hne Hn Hv.
  assert (owned_walk (VNode n) path) as Hown.
  { apply owned_walk_clear. intros q l _. by apply ref_free_no_ref. }
  destruct (tree_get_baseSet w n path v Hne Hown) as [Hget Hw].
  split; [done|]. apply ref_free_intro. intros q l Hq.
  destruct (paths_compare path q) as [[r ->]|[Hs|Hd]].
  - rewrite tree_get_app, Hget in Hq. simpl in Hq.
    by apply ref_free_no_ref in Hq.
  - apply strictly_above_spec in Hs as (k & r & ->).
    rewrite tree_get_app, Hq in Hget. done.
  - rewrite (tree_get_baseSet_diverge w n path q v Hd) in Hq.
    by apply ref_free_no_ref in Hq.
Qed.

Lemma push_ref_free code v st :
  ref_free (VNode (magentoPayload st)) → ref_free v →
  st_world (push_custom_attribute code v st) = st_world st
  ∧ ref_free (VNode (magentoPayload (push_custom_attribute code v st))).
Proof.
  intros Hp Hv.
  assert (∀ e, st_world (reject e st) = st_world st
               ∧ ref_free (VNode (magentoPayload (reject e st)))) as Hrej.
  { intros e. unfold reject. by destruct (st_rejection st). }
  unfold push_custom_attribute.
  destruct (node_get (magentoPayload st) "product") as [[?|product|?]|] eqn:Hpr;
    auto.
  destruct (node_get product "custom_attributes") as [[?|attrs|l]|] eqn:Hca;
    auto.
  - destruct (node_push attrs _) as [attrs'|] eqn:Hpush; auto.
    simpl. split; [done|].
    pose proof (ref_free_child _ _ _ Hp Hpr) as Hproduct.
    pose proof (ref_free_child _ _ _ Hproduct Hca) as Hattrs.
    apply ref_free_assign; [done|].
    apply ref_free_assign; [done|].
    eapply ref_free_push; [exact Hpush|done|].
    by apply ref_free_attribute.
  - exfalso.
    apply (ref_free_no_ref _ ["product"; "custom_attributes"] l Hp).
    simpl. by rewrite Hpr, Hca.
Qed.

Lemma fold_perform_ref_free evs st :
  ref_free (VNode (magentoPayload st)) →
  Forall (λ ev, ∀ section key v, ev = ECommit section key v → ref_free v) evs →
  st_world (fold_left perform evs st) = st_world st.
Proof.
  revert st. induction evs as [|ev evs IH]; intros st Hp Hall; [done|].
  apply Forall_cons in Hall as [Hev Hall]. simpl.
  assert (st_world (perform st ev) = st_world st
          ∧ ref_free (VNode (magentoPayload (perform st ev)))) as [Hw Hp'].
  { destruct ev as [section key v|e]; simpl.
    - specialize (Hev section key v eq_refl).
      unfold commit. destruct (absent v); [done|].
      case_decide; [by apply push_ref_free|].
      destruct (destination_product section key) as (k & ks & Hd).
      destruct (baseSet_ref_free (st_world st) (magentoPayload st)
                  (destination section key) v) as [Hw' Hp']; [|done..|].
      { by rewrite Hd. }
      unfold set. fold (destination section key).
      by destruct (baseSet _ _ _ _).
    - unfold reject. by destruct (st_rejection st). }
  rewrite IH; done.
Qed.

Lemma initial_payload_ref_free : ref_free (VNode initial_payload).
Proof. apply initial_payload_clear. Qed.

End MoreFacts.

(** ** Properties of [transform] *)

Module Claims.
Import Js Lodash Mapper Spec Examples JsFacts RunFacts PayloadFacts
  RejectionFacts ListFacts.

(** *** Sections *)




(** *** The check on the SKU *)



(** *** Failing resolvers *)



(** *** The reference scenario *)

(** C7.  With the configuration [core: { sku: 'id' }] and the source record
    [{ id: 'X1' }], the call returns [{ product: { custom_attributes: [],
    sku: 'X1' } }] and leaves the store as it was. *)
Theorem core_sku_scenario w sourceObject :
  w !! sourceObject = Some record_x1 →
  r_outcome (transform sku_only w sourceObject)
  = Returned (envelope (Obj [("custom_attributes", js_array []);
                             ("sku", str "X1")]))
  ∧ r_world (transform sku_only w sourceObject) = w.
Proof.
  intros Hsrc. unfold transform. rewrite run_tasks.
  change (tasks sku_only) with [("core", ("sku", FieldRef "id"))].
  simpl. unfold launch_task, launch. simpl. rewrite Hsrc. simpl.
  unfold commit. simpl. done.
Qed.

Lemma core_sku_scenario_witness :
  r_outcome (transform sku_only [record_x1] 0)
  = Returned (envelope (Obj [("custom_attributes", js_array []);
                             ("sku", str "X1")]))
  ∧ r_world (transform sku_only [record_x1] 0) = [record_x1].
Proof. apply core_sku_scenario. reflexivity. Defined.

End Claims.

Module ListClaims.
Import Js Lodash Mapper Spec Examples JsFacts RunFacts PayloadFacts
  RejectionFacts ListFacts ScheduleFacts RecordFacts.

(** *** The flat list *)




(** *** Missing sections *)



End ListClaims.

Module PathClaims.
Import Js Lodash Mapper Spec Examples JsFacts RunFacts PayloadFacts
  RejectionFacts.

(** *** Nested paths *)



End PathClaims.

Module AbsentClaims.
Import Js Lodash Mapper Spec Examples JsFacts RunFacts PayloadFacts
  RejectionFacts ListFacts ScheduleFacts RecordFacts RemovalFacts.

(** *** Absent values *)



End AbsentClaims.

Module StoreClaims.
Import Js Lodash Mapper Spec Examples JsFacts RunFacts PayloadFacts
  RejectionFacts ListFacts ScheduleFacts RecordFacts RemovalFacts StoreFacts.

(** *** The source record *)




(** *** Calling twice *)




End StoreClaims.

(** ** Further properties of [transform] *)

Module Extras.
Import Js Lodash Mapper Spec Examples More JsFacts RunFacts PayloadFacts
  RejectionFacts ListFacts ScheduleFacts RecordFacts RemovalFacts StoreFacts
  MoreFacts.

(** *** Where the SKU comes from *)




(** *** Where errors come from *)



(** *** Writes *)





(** X6.  A key of the flat section is never read as a path: committing a
    value for it appends the record [{attribute_code: key, value}] to the
    list, with the key as it is spelt, dots included; the other keys of
    [product], the store and the rejection stay as they are. *)
Theorem flat_key_verbatim st product rs key v :
  let st' := commit "customAttributes" key v st in
  absent v = false →
  magentoPayload st = envelope product →
  node_get product "custom_attributes" = Some (js_array rs) →
  ∃ product',
    magentoPayload st' = envelope product'
    ∧ node_get product' "custom_attributes"
      = Some (js_array (rs ++ [attribute key v]))
    ∧ (∀ k, k ≠ "custom_attributes" → node_get product' k = node_get product k)
    ∧ st_world st' = st_world st
    ∧ st_rejection st' = st_rejection st.
Proof.
  intros st' Hv Hp Hl. unfold st', commit.
  rewrite Hv, decide_True by done.
  rewrite (push_inline key v st product rs Hp Hl).
  eexists. split; [reflexivity|]. simpl.
  split_and!; [by rewrite node_get_assign_eq| |done..].
  intros k Hk. by rewrite node_get_assign_ne.
Qed.

Lemma flat_key_verbatim_witness :
  ∃ product',
    magentoPayload (commit "customAttributes" "size.eu" (num 42)
                      (initial_state [record_x1]))
    = envelope product'
    ∧ node_get product' "custom_attributes"
      = Some (js_array [attribute "size.eu" (num 42)]).
Proof.
  destruct (flat_key_verbatim (initial_state [record_x1])
              (Obj [("custom_attributes", js_array [])]) []
              "size.eu" (num 42))
    as (product' & Hp & Hl & _); [reflexivity..|].
  exists product'. split; [exact Hp|exact Hl].
Defined.

(** X7.  A rejection neither undoes nor prevents a write: the store that
    a call leaves, and the payload it has built, are those that its
    commits alone produce, whether or not an entry rejected before
    them. *)
Theorem writes_survive_rejection this w sourceObject :
  let r := transform this w sourceObject in
  let commits := filter is_commit (events (r_trace r)) in
  r_world r = st_world (fold_left perform commits (initial_state w))
  ∧ magentoPayload (run this w sourceObject)
    = magentoPayload (fold_left perform commits (initial_state w)).
Proof.
  intros r commits. unfold commits, r, transform. simpl.
  rewrite <- (st_world_erase (run _ _ _)), <- (magentoPayload_erase (run _ _ _)).
  rewrite run_events.
  apply same_data_fold. by split.
Qed.

(** *** The store *)






End Extras.
